(** * SpeechService: cloud text-to-speech with a Web Speech fallback

    A shallow embedding of [src/services/SpeechService.ts].  The service is
    a class with three fields ([config], [audio], [isSpeaking]) whose
    methods talk to three outside parties: the Azure speech SDK, the
    browser's [HTMLAudioElement] and the browser's [speechSynthesis].
    Methods are state transformers over a record that holds the fields of
    the service, the part of the browser state the methods read or write,
    the table of promises, and the trace of every call made to the outside
    (newest first).  Callbacks are kept as the data their closures capture,
    and the browser delivers events that run them. *)

From Stdlib Require Import String Ascii DecimalString.
From stdpp Require Import base tactics option list numbers.

Local Open Scope string_scope.

(** ** JavaScript values used by the service *)

Module JS.

(** The option fields [rate], [pitch] and [volume] are JavaScript numbers.
    The service never computes with them: it tests them for truthiness
    ([if (options.rate)], [options.rate || 1]) and prints them inside a
    template literal.  A number is one of the three non-finite values or a
    signed decimal [mantissa / 10^scale], which stands for the double
    nearest to it. *)
Inductive number :=
| NaN
| Infinity (negative : bool)
| Dec (negative : bool) (mantissa : N) (scale : nat).

(** [ToBoolean]: [+0], [-0] and [NaN] are falsy. *)
Definition to_boolean (x : number) : bool :=
  match x with
  | NaN => false
  | Infinity _ => true
  | Dec _ m _ => negb (m =? 0)%N
  end.

Fixpoint zeros (n : nat) : string :=
  match n with O => "" | S k => "0" ++ zeros k end.

Definition digits (m : N) : string := NilZero.string_of_uint (N.to_uint m).

(** The digits of a numeral without its trailing zeros. *)
Fixpoint significand (ds : string) : string :=
  match ds with
  | EmptyString => EmptyString
  | String d rest =>
      match significand rest with
      | EmptyString => if Ascii.eqb d "0" then EmptyString else String d EmptyString
      | r => String d r
      end
  end.

(** The exponent part of the scientific form: [e+21], [e-7]. *)
Definition exponent (e : Z) : string :=
  (if (e <? 0)%Z then "e-" else "e+") ++ digits (Z.to_N (Z.abs e)).

(** [Number::toString] in radix 10.  With [k] significant digits [ds] and
    the decimal point after the [n]-th of them: the digits and [n - k]
    zeros when [k <= n <= 21]; the digits with a point inside when
    [0 < n <= 21]; [0.], [-n] zeros and the digits when [-6 < n <= 0]; and
    the scientific form otherwise. *)
Definition to_string (x : number) : string :=
  match x with
  | NaN => "NaN"
  | Infinity neg => if neg then "-Infinity" else "Infinity"
  | Dec neg m scale =>
      if (m =? 0)%N then "0" else
      let all := digits m in
      let ds := significand all in
      let k := String.length ds in
      let n := (Z.of_nat (String.length all) - Z.of_nat scale)%Z in
      (if neg then "-" else "") ++
      (if (Z.of_nat k <=? n)%Z && (n <=? 21)%Z then
         ds ++ zeros (Z.to_nat n - k)
       else if (0 <? n)%Z && (n <=? 21)%Z then
         substring 0 (Z.to_nat n) ds ++ "." ++ substring (Z.to_nat n) (k - Z.to_nat n) ds
       else if (-6 <? n)%Z && (n <=? 0)%Z then
         "0." ++ zeros (Z.to_nat (- n)) ++ ds
       else
         match ds with
         | EmptyString => EmptyString
         | String d EmptyString => String d EmptyString ++ exponent (n - 1)
         | String d rest => String d EmptyString ++ "." ++ rest ++ exponent (n - 1)
         end)
  end.




(** Truthiness of a string: only the empty string is falsy. *)
Definition nonempty (s : string) : bool :=
  match s with EmptyString => false | String _ _ => true end.

(** [String.prototype.includes]. *)
Fixpoint includes (s sub : string) : bool :=
  if String.prefix sub s then true
  else match s with
       | EmptyString => false
       | String _ rest => includes rest sub
       end.

(** [a || b] on an optional number. *)
Definition or_default (x : option number) (d : number) : number :=
  match x with
  | Some v => if to_boolean v then v else d
  | None => d
  end.

(** [a || b] on an optional string. *)
Definition or_string (x : option string) (d : string) : string :=
  match x with
  | Some v => if nonempty v then v else d
  | None => d
  end.

(** [if (x)] on an optional number: the value when it is truthy. *)
Definition truthy (x : option number) : option number :=
  match x with
  | Some v => if to_boolean v then Some v else None
  | None => None
  end.

Definition truthy_string (x : option string) : option string :=
  match x with
  | Some v => if nonempty v then Some v else None
  | None => None
  end.

Definition one : number := Dec false 1 0.
Definition zero : number := Dec false 0 0.

End JS.

(** ** Configuration and options *)

Record AzureTTSConfig := {
  subscriptionKey : string;
  region : string;
  language : string;
  voice : string
}.

Definition DEFAULT_CONFIG : AzureTTSConfig :=
  {| subscriptionKey := "your-azure-key";
     region := "eastasia";
     language := "zh-CN";
     voice := "zh-CN-XiaoxiaoNeural" |}.

(** A configuration with a real key, as a deployment would supply it. *)
Definition with_key (key : string) (c : AzureTTSConfig) : AzureTTSConfig :=
  {| subscriptionKey := key; region := region c;
     language := language c; voice := voice c |}.

(** [SpeechOptions]: every field is optional. *)
Record SpeechOptions := {
  opt_rate : option JS.number;
  opt_pitch : option JS.number;
  opt_volume : option JS.number;
  opt_voice : option string
}.

(** The default argument [options = {}]. *)
Definition no_options : SpeechOptions :=
  {| opt_rate := None; opt_pitch := None; opt_volume := None; opt_voice := None |}.

Definition set_rate (r : option JS.number) (o : SpeechOptions) : SpeechOptions :=
  {| opt_rate := r; opt_pitch := opt_pitch o; opt_volume := opt_volume o;
     opt_voice := opt_voice o |}.



Definition set_voice (v : option string) (o : SpeechOptions) : SpeechOptions :=
  {| opt_rate := opt_rate o; opt_pitch := opt_pitch o; opt_volume := opt_volume o;
     opt_voice := v |}.

(** The key that marks the cloud backend as not configured (line 46). *)
Definition cloud_configured (c : AzureTTSConfig) : bool :=
  negb (String.eqb (subscriptionKey c) "your-azure-key").

(** ** The SSML document (lines 68-76) *)

Definition dq : string := String (ascii_of_nat 34) "".
Definition nl : string := String (ascii_of_nat 10) "".

Definition attr (name value : string) : string :=
  name ++ "=" ++ dq ++ value ++ dq.

(** The three lines of the template that carry values. *)
Definition speak_tag (lang : string) : string :=
  "<speak " ++ attr "version" "1.0" ++ " "
  ++ attr "xmlns" "http://www.w3.org/2001/10/synthesis" ++ " "
  ++ attr "xml:lang" lang ++ ">".

Definition voice_tag (name : string) : string :=
  "<voice " ++ attr "name" name ++ ">".

Definition prosody_tag (rate pitch volume : string) : string :=
  "<prosody " ++ attr "rate" rate ++ " " ++ attr "pitch" (pitch ++ "%") ++ " "
  ++ attr "volume" volume ++ ">".

Definition ssml_document (lang name rate pitch volume text : string) : string :=
  nl ++ "          " ++ speak_tag lang
  ++ nl ++ "            " ++ voice_tag name
  ++ nl ++ "              " ++ prosody_tag rate pitch volume
  ++ nl ++ "                " ++ text
  ++ nl ++ "              </prosody>"
  ++ nl ++ "            </voice>"
  ++ nl ++ "          </speak>"
  ++ nl ++ "        ".

Definition ssmlText (c : AzureTTSConfig) (text : string) (options : SpeechOptions)
  : string :=
  ssml_document
    (language c)
    (JS.or_string (opt_voice options) (voice c))
    (JS.to_string (JS.or_default (opt_rate options) JS.one))
    (JS.to_string (JS.or_default (opt_pitch options) JS.zero))
    (JS.to_string (JS.or_default (opt_volume options) JS.one))
    text.

(** ** Objects of the SDK and of the browser *)

(** What [speakSsmlAsync] is called with: the speech configuration built on
    lines 53-62 and the document. *)
Record SynthesisRequest := {
  req_subscriptionKey : string;
  req_region : string;
  req_voiceName : string;     (* speechConfig.speechSynthesisVoiceName *)
  req_outputFormat : string;  (* speechConfig.speechSynthesisOutputFormat *)
  req_ssml : string
}.

Record SpeechSynthesisVoice := {
  voice_name : string;
  voice_lang : string
}.

(** An utterance; [None] in [utt_rate], [utt_pitch], [utt_volume] or
    [utt_voice] means the property was never assigned and keeps the
    platform default. *)
Record SpeechSynthesisUtterance := {
  utt_text : string;
  utt_lang : string;
  utt_rate : option JS.number;
  utt_pitch : option JS.number;
  utt_volume : option JS.number;
  utt_voice : option SpeechSynthesisVoice
}.

(** The closures of [playAudioBuffer] capture the object URL and the
    [resolve]/[reject] pair of the promise they belong to. *)
Record playback := {
  pb_url : nat;
  pb_promise : nat
}.

Record HTMLAudioElement := {
  src : option nat;
  paused : bool;
  onended : option playback;
  onerror : option playback
}.

(** [window.speechSynthesis]: the installed voices, the utterances handed
    to [speak] and not finished or cancelled (named by the promise of the
    call that made them, newest first), and the [onvoiceschanged] handler. *)
Record SpeechSynthesis := {
  voices : list SpeechSynthesisVoice;
  queue : list nat;
  onvoiceschanged : option nat
}.

(** ** Errors, promises and suspended calls *)

Inductive error :=
| Error (message : string)     (* new Error(message), made by the service *)
| SdkError (detail : string)   (* argument of the SDK's error callback *)
| Exception (name : string).   (* thrown by the SDK or by the browser *)

Inductive value :=
| Undefined
| Null
| Buffer (audioData : list Byte.byte)
| Names (names : list string).

Inductive outcome :=
| Resolved (v : value)
| Rejected (e : error).

(** Where a call of [speak] is suspended: the three [await]s of lines 165,
    172 and 178, with the variables still needed after them. *)
Inductive cont :=
| AwaitSynthesize (text : string) (options : SpeechOptions)
| AwaitWebSpeech (text : string) (options : SpeechOptions)
| AwaitFallback (original : error).

Record frame := {
  fr_call : nat;   (* the promise returned by this call of speak *)
  fr_cont : cont
}.

(** Which method created a promise. *)
Inductive origin :=
| OfSpeak
| OfSynthesize
| OfWebSpeech
| OfPlayback (url : nat)
| OfVoices.

Inductive status :=
| Pending (awaiter : option frame)
| Settled (o : outcome).

Record promise := {
  pr_origin : origin;
  pr_status : status
}.

(** ** Calls to the outside *)

Inductive effect :=
| SpeakSsmlAsync (req : SynthesisRequest)     (* the network request *)
| SynthesizerClose
| CreateObjectURL (audioData : list Byte.byte) (url : nat)
| RevokeObjectURL (url : nat)
| NewAudio
| AudioSetSrc (url : nat)
| AudioPlay
| AudioPause
| AudioSeekToStart                             (* audio.currentTime = 0 *)
| GetVoices
| SynthSpeak (p : nat) (u : SpeechSynthesisUtterance)
| SynthCancel
| ConsoleError (message : string) (e : error).

(** ** State *)

Record State := {
  config : AzureTTSConfig;                      (* this.config *)
  audio : option HTMLAudioElement;              (* this.audio *)
  isSpeaking : bool;                            (* this.isSpeaking *)
  speechSynthesis : option SpeechSynthesis;     (* window.speechSynthesis *)
  sdk_fault : option string;   (* exception the SDK raises while a request is set up *)
  promises : list promise;
  object_urls : list nat;                       (* created and not revoked *)
  next_url : nat;
  trace : list effect                           (* newest first *)
}.

Definition with_audio (a : option HTMLAudioElement) (s : State) : State :=
  {| config := config s; audio := a; isSpeaking := isSpeaking s;
     speechSynthesis := speechSynthesis s; sdk_fault := sdk_fault s;
     promises := promises s; object_urls := object_urls s;
     next_url := next_url s; trace := trace s |}.

Definition with_isSpeaking (b : bool) (s : State) : State :=
  {| config := config s; audio := audio s; isSpeaking := b;
     speechSynthesis := speechSynthesis s; sdk_fault := sdk_fault s;
     promises := promises s; object_urls := object_urls s;
     next_url := next_url s; trace := trace s |}.

Definition with_speechSynthesis (y : option SpeechSynthesis) (s : State) : State :=
  {| config := config s; audio := audio s; isSpeaking := isSpeaking s;
     speechSynthesis := y; sdk_fault := sdk_fault s;
     promises := promises s; object_urls := object_urls s;
     next_url := next_url s; trace := trace s |}.

Definition with_promises (ps : list promise) (s : State) : State :=
  {| config := config s; audio := audio s; isSpeaking := isSpeaking s;
     speechSynthesis := speechSynthesis s; sdk_fault := sdk_fault s;
     promises := ps; object_urls := object_urls s;
     next_url := next_url s; trace := trace s |}.

Definition with_object_urls (live : list nat) (next : nat) (s : State) : State :=
  {| config := config s; audio := audio s; isSpeaking := isSpeaking s;
     speechSynthesis := speechSynthesis s; sdk_fault := sdk_fault s;
     promises := promises s; object_urls := live;
     next_url := next; trace := trace s |}.

(** Record a call to the outside. *)
Definition emit (e : effect) (s : State) : State :=
  {| config := config s; audio := audio s; isSpeaking := isSpeaking s;
     speechSynthesis := speechSynthesis s; sdk_fault := sdk_fault s;
     promises := promises s; object_urls := object_urls s;
     next_url := next_url s; trace := e :: trace s |}.

(** [new SpeechService(config)] in a browser whose [window.speechSynthesis]
    and SDK behave as given. *)
Definition new_SpeechService (c : AzureTTSConfig)
    (synth : option SpeechSynthesis) (fault : option string) : State :=
  {| config := c; audio := None; isSpeaking := false;
     speechSynthesis := synth; sdk_fault := fault;
     promises := []; object_urls := []; next_url := 0; trace := [] |}.

(** ** Promises *)

(** [new Promise(...)]: a fresh pending promise, named by its index. *)
Definition new_promise (o : origin) (s : State) : nat * State :=
  (length (promises s),
   with_promises (promises s ++ [{| pr_origin := o; pr_status := Pending None |}]) s).

Definition status_of (p : nat) (s : State) : option status :=
  pr_status <$> promises s !! p.

Definition origin_of (p : nat) (s : State) : option origin :=
  pr_origin <$> promises s !! p.

Definition set_status (p : nat) (st : status) (s : State) : State :=
  with_promises
    (alter (fun pr => {| pr_origin := pr_origin pr; pr_status := st |}) p (promises s)) s.

(** [resolve(v)] or [reject(e)]: only the first call on a promise counts. *)
Definition fulfil (p : nat) (o : outcome) (s : State) : State :=
  match status_of p s with
  | Some (Pending _) => set_status p (Settled o) s
  | _ => s
  end.

(** [await p].  JavaScript never resumes the caller at once: when [p] is
    settled the rest of the call is queued as a promise job and runs when
    the code that is running has finished.  Here the job runs at once, which
    gives the state at the end of the turn of the event loop in which the
    call is made, when nothing else runs before its jobs; [Microtask.await]
    below keeps the job in the queue.  When [p] is pending the frame is
    parked. *)
Definition await (p : nat) (fr : frame) (k : outcome -> State -> State) (s : State)
  : State :=
  match status_of p s with
  | Some (Settled o) => k o s
  | _ => set_status p (Pending (Some fr)) s
  end.

(** ** Synchronous calls that can throw *)

Inductive completion :=
| Normal (s : State)
| Throw (e : error) (s : State).

Definition and_then (c : completion) (k : State -> completion) : completion :=
  match c with
  | Normal s => k s
  | Throw e s => Throw e s
  end.

Notation "c >>> k" := (and_then c k) (at level 50, left associativity).

(** Method calls on [this.audio] and [window.speechSynthesis]: a call on
    [null] or [undefined] throws a [TypeError]. *)
Definition audio_pause (s : State) : completion :=
  match audio s with
  | Some el =>
      Normal (emit AudioPause
        (with_audio (Some {| src := src el; paused := true;
                             onended := onended el; onerror := onerror el |}) s))
  | None => Throw (Exception "TypeError") s
  end.

Definition audio_seek_to_start (s : State) : completion :=
  match audio s with
  | Some _ => Normal (emit AudioSeekToStart s)
  | None => Throw (Exception "TypeError") s
  end.

Definition synth_cancel (s : State) : completion :=
  match speechSynthesis s with
  | Some sy =>
      Normal (emit SynthCancel
        (with_speechSynthesis
           (Some {| voices := voices sy; queue := [];
                    onvoiceschanged := onvoiceschanged sy |}) s))
  | None => Throw (Exception "TypeError") s
  end.

(** ** stop and isPlaying (lines 227-247) *)

Definition stop (s : State) : completion :=
  match audio s with
  | Some _ => audio_pause s >>> audio_seek_to_start
  | None => Normal s
  end
  >>> (fun s =>
         match speechSynthesis s with
         | Some _ => if isSpeaking s then synth_cancel s else Normal s
         | None => Normal s
         end)
  >>> (fun s => Normal (with_isSpeaking false s)).

Definition isPlaying (s : State) : bool := isSpeaking s.

(** The state [stop] leaves behind, written field by field; [stop_normal]
    below proves that [stop] computes it. *)
Definition rewound (a : option HTMLAudioElement) : option HTMLAudioElement :=
  match a with
  | Some el =>
      Some {| src := src el; paused := true;
              onended := onended el; onerror := onerror el |}
  | None => None
  end.

Definition cancelled (speaking : bool) (y : option SpeechSynthesis)
  : option SpeechSynthesis :=
  match y with
  | Some sy =>
      Some (if speaking
            then {| voices := voices sy; queue := [];
                    onvoiceschanged := onvoiceschanged sy |}
            else sy)
  | None => None
  end.

(** The calls [stop] makes, newest first. *)
Definition stop_calls (a : option HTMLAudioElement) (y : option SpeechSynthesis)
    (speaking : bool) : list effect :=
  match y with
  | Some _ => if speaking then [SynthCancel] else []
  | None => []
  end ++
  match a with
  | Some _ => [AudioSeekToStart; AudioPause]
  | None => []
  end.

Definition stopped (s : State) : State :=
  {| config := config s;
     audio := rewound (audio s);
     isSpeaking := false;
     speechSynthesis := cancelled (isSpeaking s) (speechSynthesis s);
     sdk_fault := sdk_fault s;
     promises := promises s;
     object_urls := object_urls s;
     next_url := next_url s;
     trace := stop_calls (audio s) (speechSynthesis s) (isSpeaking s) ++ trace s |}.

(** ** synthesizeSpeech (lines 44-101) *)

Definition synthesis_request (c : AzureTTSConfig) (text : string)
    (options : SpeechOptions) : SynthesisRequest :=
  {| req_subscriptionKey := subscriptionKey c;
     req_region := region c;
     req_voiceName := JS.or_string (opt_voice options) (voice c);
     req_outputFormat := "Audio16Khz32KBitRateMonoMp3";
     req_ssml := ssmlText c text options |}.

Definition synthesizeSpeech (text : string) (options : SpeechOptions) (s : State)
  : nat * State :=
  let '(p, s) := new_promise OfSynthesize s in
  if cloud_configured (config s) then
    match sdk_fault s with
    | Some name => (p, fulfil p (Rejected (Exception name)) s)
    | None => (p, emit (SpeakSsmlAsync (synthesis_request (config s) text options)) s)
    end
  else (p, fulfil p (Resolved Null) s).

(** ** speakWithWebSpeech (lines 106-157) *)

Definition installed_voices (s : State) : list SpeechSynthesisVoice :=
  match speechSynthesis s with
  | Some sy => voices sy
  | None => []
  end.

(** The [find] of lines 131-134. *)
Definition select_voice (c : AzureTTSConfig) (options : SpeechOptions)
    (vs : list SpeechSynthesisVoice) : option SpeechSynthesisVoice :=
  List.find
    (fun v => JS.includes (voice_name v) (JS.or_string (opt_voice options) "")
              && JS.includes (voice_lang v) (language c))
    vs.

Definition make_utterance (c : AzureTTSConfig) (text : string)
    (options : SpeechOptions) (selected : option SpeechSynthesisVoice)
  : SpeechSynthesisUtterance :=
  {| utt_text := text;
     utt_lang := language c;
     utt_rate := JS.truthy (opt_rate options);
     utt_pitch := JS.truthy (opt_pitch options);
     utt_volume := JS.truthy (opt_volume options);
     utt_voice := selected |}.

(** [window.speechSynthesis.speak(utterance)]. *)
Definition synth_speak (p : nat) (u : SpeechSynthesisUtterance) (s : State) : State :=
  match speechSynthesis s with
  | Some sy =>
      emit (SynthSpeak p u)
        (with_speechSynthesis
           (Some {| voices := voices sy; queue := p :: queue sy;
                    onvoiceschanged := onvoiceschanged sy |}) s)
  | None => s
  end.

Definition speakWithWebSpeech (text : string) (options : SpeechOptions) (s : State)
  : nat * State :=
  let '(p, s) := new_promise OfWebSpeech s in
  match speechSynthesis s with
  | None => (p, fulfil p (Rejected (Error "您的浏览器不支持语音合成")) s)
  | Some _ =>
      match stop s with
      | Throw e s => (p, fulfil p (Rejected e) s)
      | Normal s =>
          let '(selected, s) :=
            match JS.truthy_string (opt_voice options) with
            | Some _ =>
                (select_voice (config s) options (installed_voices s), emit GetVoices s)
            | None => (None, s)
            end in
          let utterance := make_utterance (config s) text options selected in
          (p, synth_speak p utterance (with_isSpeaking true s))
      end
  end.

(** ** playAudioBuffer (lines 189-222) *)

Definition createObjectURL (audioData : list Byte.byte) (s : State) : nat * State :=
  let url := next_url s in
  (url, emit (CreateObjectURL audioData url)
          (with_object_urls (url :: object_urls s) (S url) s)).

Definition revokeObjectURL (url : nat) (s : State) : State :=
  emit (RevokeObjectURL url)
    (with_object_urls
       (List.filter (fun u => negb (Nat.eqb u url)) (object_urls s)) (next_url s) s).

Definition fresh_audio : HTMLAudioElement :=
  {| src := None; paused := true; onended := None; onerror := None |}.

Definition update_audio (f : HTMLAudioElement -> HTMLAudioElement) (s : State) : State :=
  match audio s with
  | Some el => with_audio (Some (f el)) s
  | None => s
  end.

(** Assigning [src] reloads the element, which pauses it; [play] starts it. *)
Definition playAudioBuffer (audioData : list Byte.byte) (s : State) : nat * State :=
  let '(p, s) := new_promise (OfPlayback (next_url s)) s in
  let '(url, s) := createObjectURL audioData s in
  let s :=
    match audio s with
    | Some _ => s
    | None => emit NewAudio (with_audio (Some fresh_audio) s)
    end in
  let handlers := {| pb_url := url; pb_promise := p |} in
  let s := update_audio (fun el =>
             {| src := src el; paused := paused el;
                onended := Some handlers; onerror := onerror el |}) s in
  let s := update_audio (fun el =>
             {| src := src el; paused := paused el;
                onended := onended el; onerror := Some handlers |}) s in
  let s := emit (AudioSetSrc url)
             (update_audio (fun el =>
                {| src := Some url; paused := true;
                   onended := onended el; onerror := onerror el |}) s) in
  let s := with_isSpeaking true s in
  let s := emit AudioPlay
             (update_audio (fun el =>
                {| src := src el; paused := false;
                   onended := onended el; onerror := onerror el |}) s) in
  (p, s).

(** ** speak (lines 162-184) *)

(** [speak] is the call together with the promise jobs it leaves: the state
    at the end of the turn in which [speak] is called.  What has run when
    the call returns is [Microtask.speak]. *)

(** After the [await] of line 178. *)
Definition fallback_k (call : nat) (original : error) (o : outcome) (s : State)
  : State :=
  match o with
  | Resolved _ => fulfil call (Resolved Undefined) s
  | Rejected webSpeechError =>
      fulfil call (Rejected original)
        (emit (ConsoleError "Web Speech API也失败:" webSpeechError) s)
  end.

(** The [catch (error)] block of lines 174-183. *)
Definition catch_block (call : nat) (text : string) (options : SpeechOptions)
    (e : error) (s : State) : State :=
  let s := emit (ConsoleError "语音合成失败:" e) s in
  let '(p, s) := speakWithWebSpeech text options s in
  await p {| fr_call := call; fr_cont := AwaitFallback e |} (fallback_k call e) s.

(** After the [await] of line 172. *)
Definition webspeech_k (call : nat) (text : string) (options : SpeechOptions)
    (o : outcome) (s : State) : State :=
  match o with
  | Resolved _ => fulfil call (Resolved Undefined) s
  | Rejected e => catch_block call text options e s
  end.

(** After the [await] of line 165.  The promise of [synthesizeSpeech] is
    resolved with a buffer or with [null], and [if (audioData)] holds for
    the buffer; the promise of [playAudioBuffer] is dropped (line 169). *)
Definition synthesize_k (call : nat) (text : string) (options : SpeechOptions)
    (o : outcome) (s : State) : State :=
  match o with
  | Resolved (Buffer audioData) =>
      let '(_, s) := playAudioBuffer audioData s in
      fulfil call (Resolved Undefined) s
  | Resolved _ =>
      let '(p, s) := speakWithWebSpeech text options s in
      await p {| fr_call := call; fr_cont := AwaitWebSpeech text options |}
        (webspeech_k call text options) s
  | Rejected e => catch_block call text options e s
  end.

Definition speak (text : string) (options : SpeechOptions) (s : State) : nat * State :=
  let '(call, s) := new_promise OfSpeak s in
  let '(p, s) := synthesizeSpeech text options s in
  (call,
   await p {| fr_call := call; fr_cont := AwaitSynthesize text options |}
     (synthesize_k call text options) s).

(** Wake the call parked on a promise. *)
Definition resume (fr : frame) (o : outcome) (s : State) : State :=
  match fr_cont fr with
  | AwaitSynthesize text options => synthesize_k (fr_call fr) text options o s
  | AwaitWebSpeech text options => webspeech_k (fr_call fr) text options o s
  | AwaitFallback original => fallback_k (fr_call fr) original o s
  end.

(** [resolve]/[reject] called from a callback, as the last statement of
    the callback: settle, and run the job of the awaiter ([Microtask.settle]
    queues it). *)
Definition settle (p : nat) (o : outcome) (s : State) : State :=
  match status_of p s with
  | Some (Pending w) =>
      let s := set_status p (Settled o) s in
      match w with
      | Some fr => resume fr o s
      | None => s
      end
  | _ => s
  end.

(** ** getAvailableVoices (lines 252-284) *)

Definition chineseVoices (vs : list SpeechSynthesisVoice) : list string :=
  List.map voice_name (List.filter (fun v => JS.includes (voice_lang v) "zh") vs).

Definition getAvailableVoices (s : State) : nat * State :=
  let '(p, s) := new_promise OfVoices s in
  match speechSynthesis s with
  | None => (p, fulfil p (Resolved (Names [])) s)
  | Some sy =>
      let s := emit GetVoices s in
      match voices sy with
      | [] =>
          (p, with_speechSynthesis
                (Some {| voices := voices sy; queue := queue sy;
                         onvoiceschanged := Some p |}) s)
      | _ :: _ => (p, fulfil p (Resolved (Names (chineseVoices (voices sy)))) s)
      end
  end.

(** ** Events delivered by the SDK and the browser *)

(** How [speakSsmlAsync] calls back: the result callback with reason
    [SynthesizingAudioCompleted], the result callback with another reason,
    or the error callback. *)
Inductive synthesis_result :=
| Completed (audioData : list Byte.byte)
| NotCompleted (errorDetails : string)
| Failed (error : string).

Definition synthesis_outcome (r : synthesis_result) : outcome :=
  match r with
  | Completed audioData => Resolved (Buffer audioData)
  | NotCompleted errorDetails => Rejected (Error ("语音合成失败: " ++ errorDetails))
  | Failed e => Rejected (SdkError e)
  end.

Inductive event :=
| SynthesisDone (p : nat) (r : synthesis_result)
| UtteranceEnd (p : nat)                   (* utterance.onend *)
| UtteranceError (p : nat) (code : string) (* utterance.onerror *)
| AudioEnded                               (* audio.onended *)
| AudioError                               (* audio.onerror *)
| PlayRejected (p : nat) (name : string)   (* audio.play() rejects *)
| VoicesChanged (vs : list SpeechSynthesisVoice).

Definition dequeue (p : nat) (s : State) : State :=
  match speechSynthesis s with
  | Some sy =>
      with_speechSynthesis
        (Some {| voices := voices sy;
                 queue := List.filter (fun q => negb (Nat.eqb q p)) (queue sy);
                 onvoiceschanged := onvoiceschanged sy |}) s
  | None => s
  end.

Definition set_paused (b : bool) (s : State) : State :=
  update_audio (fun el =>
    {| src := src el; paused := b; onended := onended el; onerror := onerror el |}) s.

(** An event runs the callback registered for it, after the browser has
    updated its own state: a finished or failed utterance leaves the queue,
    audio that ended or failed is no longer playing.  An event that names a
    promise of another method finds no callback and does nothing. *)
Definition handle (ev : event) (s : State) : State :=
  match ev with
  | SynthesisDone p r =>
      match origin_of p s with
      | Some OfSynthesize => settle p (synthesis_outcome r) (emit SynthesizerClose s)
      | _ => s
      end
  | UtteranceEnd p =>
      match origin_of p s with
      | Some OfWebSpeech =>
          settle p (Resolved Undefined) (with_isSpeaking false (dequeue p s))
      | _ => s
      end
  | UtteranceError p code =>
      match origin_of p s with
      | Some OfWebSpeech =>
          settle p (Rejected (Error ("语音合成错误: " ++ code)))
            (with_isSpeaking false (dequeue p s))
      | _ => s
      end
  | AudioEnded =>
      match audio s ≫= onended with
      | Some h =>
          settle (pb_promise h) (Resolved Undefined)
            (revokeObjectURL (pb_url h) (with_isSpeaking false (set_paused true s)))
      | None => s
      end
  | AudioError =>
      match audio s ≫= onerror with
      | Some h =>
          settle (pb_promise h) (Rejected (Error "音频播放错误: [object Event]"))
            (revokeObjectURL (pb_url h) (with_isSpeaking false (set_paused true s)))
      | None => s
      end
  | PlayRejected p name =>
      match origin_of p s with
      | Some (OfPlayback url) =>
          settle p (Rejected (Exception name))
            (revokeObjectURL url (with_isSpeaking false (set_paused true s)))
      | _ => s
      end
  | VoicesChanged vs =>
      match speechSynthesis s with
      | Some sy =>
          let s := with_speechSynthesis
                     (Some {| voices := vs; queue := queue sy;
                              onvoiceschanged := onvoiceschanged sy |}) s in
          match onvoiceschanged sy with
          | Some p => settle p (Resolved (Names (chineseVoices vs))) (emit GetVoices s)
          | None => s
          end
      | None => s
      end
  end.

(** ** Synchronous calls and runs of events *)

Definition after (c : completion) : State :=
  match c with
  | Normal s => s
  | Throw _ s => s
  end.

(** ** Promise jobs *)

(** The methods once more for the continuations of [speak], with the jobs
    kept in a queue instead of run at once: an [await] on a settled promise
    and a [resolve] or [reject] on an awaited promise queue the rest of the
    suspended call, and the queue is run, oldest job first, when the turn
    ends.  The jobs JavaScript spends on adopting the promise an [async]
    method returns are not counted: they delay every call made in a turn
    alike, and so leave the order of the jobs as it is. *)
Module Microtask.

(** A promise job: the call suspended at an [await], and the outcome it is
    resumed with. *)
Record job := {
  job_frame : frame;
  job_outcome : outcome
}.

(** The service inside a turn of the event loop: its state now, and the
    jobs queued for the end of the turn, oldest first. *)
Record turn := {
  now : State;
  jobs : list job
}.

Definition on_state (f : State -> State) (t : turn) : turn :=
  {| now := f (now t); jobs := jobs t |}.

Definition enqueue (j : job) (t : turn) : turn :=
  {| now := now t; jobs := jobs t ++ [j] |}.

Definition await (p : nat) (fr : frame) (t : turn) : turn :=
  match status_of p (now t) with
  | Some (Settled o) => enqueue {| job_frame := fr; job_outcome := o |} t
  | _ => on_state (set_status p (Pending (Some fr))) t
  end.

Definition settle (p : nat) (o : outcome) (t : turn) : turn :=
  match status_of p (now t) with
  | Some (Pending w) =>
      let t := on_state (set_status p (Settled o)) t in
      match w with
      | Some fr => enqueue {| job_frame := fr; job_outcome := o |} t
      | None => t
      end
  | _ => t
  end.

Definition catch_block (call : nat) (text : string) (options : SpeechOptions)
    (e : error) (t : turn) : turn :=
  let s := emit (ConsoleError "语音合成失败:" e) (now t) in
  let '(p, s) := speakWithWebSpeech text options s in
  await p {| fr_call := call; fr_cont := AwaitFallback e |}
    {| now := s; jobs := jobs t |}.

Definition webspeech_k (call : nat) (text : string) (options : SpeechOptions)
    (o : outcome) (t : turn) : turn :=
  match o with
  | Resolved _ => on_state (fulfil call (Resolved Undefined)) t
  | Rejected e => catch_block call text options e t
  end.

Definition synthesize_k (call : nat) (text : string) (options : SpeechOptions)
    (o : outcome) (t : turn) : turn :=
  match o with
  | Resolved (Buffer audioData) =>
      let '(_, s) := playAudioBuffer audioData (now t) in
      {| now := fulfil call (Resolved Undefined) s; jobs := jobs t |}
  | Resolved _ =>
      let '(p, s) := speakWithWebSpeech text options (now t) in
      await p {| fr_call := call; fr_cont := AwaitWebSpeech text options |}
        {| now := s; jobs := jobs t |}
  | Rejected e => catch_block call text options e t
  end.

Definition resume (j : job) (t : turn) : turn :=
  let fr := job_frame j in
  match fr_cont fr with
  | AwaitSynthesize text options =>
      synthesize_k (fr_call fr) text options (job_outcome j) t
  | AwaitWebSpeech text options =>
      webspeech_k (fr_call fr) text options (job_outcome j) t
  | AwaitFallback original =>
      on_state (fallback_k (fr_call fr) original (job_outcome j)) t
  end.

Definition speak (text : string) (options : SpeechOptions) (t : turn) : nat * turn :=
  let '(call, s) := new_promise OfSpeak (now t) in
  let '(p, s) := synthesizeSpeech text options s in
  (call,
   await p {| fr_call := call; fr_cont := AwaitSynthesize text options |}
     {| now := s; jobs := jobs t |}).

Definition handle (ev : event) (t : turn) : turn :=
  let s := now t in
  match ev with
  | SynthesisDone p r =>
      match origin_of p s with
      | Some OfSynthesize =>
          settle p (synthesis_outcome r) (on_state (emit SynthesizerClose) t)
      | _ => t
      end
  | UtteranceEnd p =>
      match origin_of p s with
      | Some OfWebSpeech =>
          settle p (Resolved Undefined)
            (on_state (fun s => with_isSpeaking false (dequeue p s)) t)
      | _ => t
      end
  | UtteranceError p code =>
      match origin_of p s with
      | Some OfWebSpeech =>
          settle p (Rejected (Error ("语音合成错误: " ++ code)))
            (on_state (fun s => with_isSpeaking false (dequeue p s)) t)
      | _ => t
      end
  | AudioEnded =>
      match audio s ≫= onended with
      | Some h =>
          settle (pb_promise h) (Resolved Undefined)
            (on_state (fun s => revokeObjectURL (pb_url h)
                                  (with_isSpeaking false (set_paused true s))) t)
      | None => t
      end
  | AudioError =>
      match audio s ≫= onerror with
      | Some h =>
          settle (pb_promise h) (Rejected (Error "音频播放错误: [object Event]"))
            (on_state (fun s => revokeObjectURL (pb_url h)
                                  (with_isSpeaking false (set_paused true s))) t)
      | None => t
      end
  | PlayRejected p name =>
      match origin_of p s with
      | Some (OfPlayback url) =>
          settle p (Rejected (Exception name))
            (on_state (fun s => revokeObjectURL url
                                  (with_isSpeaking false (set_paused true s))) t)
      | _ => t
      end
  | VoicesChanged vs =>
      match speechSynthesis s with
      | Some sy =>
          let t := on_state (with_speechSynthesis
                     (Some {| voices := vs; queue := queue sy;
                              onvoiceschanged := onvoiceschanged sy |})) t in
          match onvoiceschanged sy with
          | Some p =>
              settle p (Resolved (Names (chineseVoices vs)))
                (on_state (emit GetVoices) t)
          | None => t
          end
      | None => t
      end
  end.

(** Run the oldest job. *)
Definition step (t : turn) : turn :=
  match jobs t with
  | [] => t
  | j :: js => resume j {| now := now t; jobs := js |}
  end.

Fixpoint steps (n : nat) (t : turn) : turn :=
  match n with
  | O => t
  | S k => steps k (step t)
  end.

(** How many jobs a job can lead to, itself included. *)
Definition rank (k : cont) : nat :=
  match k with
  | AwaitSynthesize _ _ => 3
  | AwaitWebSpeech _ _ => 2
  | AwaitFallback _ => 1
  end.

Definition budget (js : list job) : nat :=
  list_sum (List.map (fun j => rank (fr_cont (job_frame j))) js).

(** The end of the turn: the jobs are run until none is left. *)
Definition quiesce (t : turn) : turn := steps (budget (jobs t)) t.

(** A turn that starts with the service in state [s]. *)
Definition start (s : State) : turn := {| now := s; jobs := [] |}.

End Microtask.

(** ** What can be observed *)

Definition result_of (p : nat) (s : State) : option outcome :=
  match status_of p s with
  | Some (Settled o) => Some o
  | _ => None
  end.

Definition audio_playing (s : State) : bool :=
  match audio s with
  | Some el => negb (paused el)
  | None => false
  end.

Definition utterances_speaking (s : State) : list nat :=
  match speechSynthesis s with
  | Some sy => queue sy
  | None => []
  end.

(** The number of playback sessions the browser is rendering. *)
Definition active_sessions (s : State) : nat :=
  (if audio_playing s then 1 else 0) + length (utterances_speaking s).

Definition is_network_call (e : effect) : bool :=
  match e with
  | SpeakSsmlAsync _ => true
  | _ => false
  end.

Definition is_backend_call (e : effect) : bool :=
  match e with
  | SpeakSsmlAsync _ | SynthSpeak _ _ => true
  | _ => false
  end.

Definition is_revoke (url : nat) (e : effect) : bool :=
  match e with
  | RevokeObjectURL u => Nat.eqb u url
  | _ => false
  end.

Definition releases (url : nat) (s : State) : nat :=
  length (List.filter (is_revoke url) (trace s)).

(** ** The states the two playback paths leave behind *)

(** Written field by field; [speakWithWebSpeech_started] and
    [playAudioBuffer_normal] below prove that the methods compute them. *)

Definition voice_calls (options : SpeechOptions) : list effect :=
  match JS.truthy_string (opt_voice options) with
  | Some _ => [GetVoices]
  | None => []
  end.

Definition selected_voice (c : AzureTTSConfig) (options : SpeechOptions)
    (vs : list SpeechSynthesisVoice) : option SpeechSynthesisVoice :=
  match JS.truthy_string (opt_voice options) with
  | Some _ => select_voice c options vs
  | None => None
  end.

(** The utterance [speakWithWebSpeech] hands to the synthesizer [sy]. *)
Definition local_utterance (c : AzureTTSConfig) (text : string)
    (options : SpeechOptions) (sy : SpeechSynthesis) : SpeechSynthesisUtterance :=
  make_utterance c text options (selected_voice c options (voices sy)).

(** After [speakWithWebSpeech] on a platform with a synthesizer. *)
Definition local_session (text : string) (options : SpeechOptions)
    (sy : SpeechSynthesis) (s : State) : State :=
  let p := length (promises s) in
  {| config := config s;
     audio := rewound (audio s);
     isSpeaking := true;
     speechSynthesis :=
       Some {| voices := voices sy;
               queue := p :: (if isSpeaking s then [] else queue sy);
               onvoiceschanged := onvoiceschanged sy |};
     sdk_fault := sdk_fault s;
     promises := promises s ++ [{| pr_origin := OfWebSpeech; pr_status := Pending None |}];
     object_urls := object_urls s;
     next_url := next_url s;
     trace := SynthSpeak p (local_utterance (config s) text options sy)
              :: voice_calls options
              ++ stop_calls (audio s) (Some sy) (isSpeaking s)
              ++ trace s |}.

Definition new_audio_calls (a : option HTMLAudioElement) : list effect :=
  match a with
  | Some _ => []
  | None => [NewAudio]
  end.

(** After [playAudioBuffer]. *)
Definition cloud_session (audioData : list Byte.byte) (s : State) : State :=
  let p := length (promises s) in
  let url := next_url s in
  let handlers := {| pb_url := url; pb_promise := p |} in
  {| config := config s;
     audio := Some {| src := Some url; paused := false;
                      onended := Some handlers; onerror := Some handlers |};
     isSpeaking := true;
     speechSynthesis := speechSynthesis s;
     sdk_fault := sdk_fault s;
     promises := promises s ++ [{| pr_origin := OfPlayback url; pr_status := Pending None |}];
     object_urls := url :: object_urls s;
     next_url := S url;
     trace := AudioPlay :: AudioSetSrc url
              :: new_audio_calls (audio s)
              ++ CreateObjectURL audioData url :: trace s |}.

Definition network_calls (s : State) : list effect :=
  List.filter is_network_call (trace s).

Definition backend_calls (s : State) : list effect :=
  List.filter is_backend_call (trace s).

(** Events delivered one after the other. *)
Definition deliver (evs : list event) (s : State) : State :=
  fold_left (fun s ev => handle ev s) evs s.

(** ** The documented ranges of the options (lines 25-27) *)





(** ** The ways a playback of cloud audio comes to an end *)

Inductive playback_exit :=
| EndsNaturally                       (* the ended event, lines 201-205 *)
| FailsWhilePlaying                   (* the error event, lines 207-211 *)
| PlayAttemptRejects (name : string). (* audio.play() rejects, lines 216-220 *)

(** The event of an exit, for the playback whose promise is [p]. *)
Definition exit_event (p : nat) (x : playback_exit) : event :=
  match x with
  | EndsNaturally => AudioEnded
  | FailsWhilePlaying => AudioError
  | PlayAttemptRejects name => PlayRejected p name
  end.

Definition exit_outcome (x : playback_exit) : outcome :=
  match x with
  | EndsNaturally => Resolved Undefined
  | FailsWhilePlaying => Rejected (Error "音频播放错误: [object Event]")
  | PlayAttemptRejects name => Rejected (Exception name)
  end.

(** ** Options as the service reads them *)








(** ** How the cloud backend fails *)

(** The two ways the cloud backend fails during a call of [speak] on [s],
    with the error the promise of [synthesizeSpeech] is rejected with and
    the state once the rejection has been taken up: the SDK throws while the
    request is set up (lines 97-99), or [speakSsmlAsync] calls back with a
    failure (lines 87-95). *)
Inductive cloud_fails (s : State) (text : string) (options : SpeechOptions)
  : error -> State -> Prop :=
| fails_at_setup (name : string) :
    sdk_fault s = Some name ->
    cloud_fails s text options (Exception name) (snd (speak text options s))
| fails_by_callback (r : synthesis_result) (e : error) :
    sdk_fault s = None ->
    synthesis_outcome r = Rejected e ->
    cloud_fails s text options e
      (handle (SynthesisDone (length (promises s) + 1) r)
         (snd (speak text options s))).

(** ** The text around the spoken text (lines 68-76) *)

(** The SSML document up to the text and after it. *)
Definition ssml_before (c : AzureTTSConfig) (options : SpeechOptions) : string :=
  (nl ++ "          " ++ speak_tag (language c)
  ++ nl ++ "            " ++ voice_tag (JS.or_string (opt_voice options) (voice c))
  ++ nl ++ "              "
  ++ prosody_tag (JS.to_string (JS.or_default (opt_rate options) JS.one))
       (JS.to_string (JS.or_default (opt_pitch options) JS.zero))
       (JS.to_string (JS.or_default (opt_volume options) JS.one))
  ++ nl ++ "                ")%string.

Definition ssml_after : string :=
  (nl ++ "              </prosody>"
  ++ nl ++ "            </voice>"
  ++ nl ++ "          </speak>"
  ++ nl ++ "        ")%string.

(** ** Runs of the service *)

(** What a client and the platform can do to the service. *)
Inductive operation :=
| CallSpeak (text : string) (options : SpeechOptions)
| CallStop
| CallGetAvailableVoices
| Deliver (ev : event).

Definition perform (op : operation) (s : State) : State :=
  match op with
  | CallSpeak text options => snd (speak text options s)
  | CallStop => after (stop s)
  | CallGetAvailableVoices => snd (getAvailableVoices s)
  | Deliver ev => handle ev s
  end.

Definition run (ops : list operation) (s : State) : State :=
  fold_left (fun s op => perform op s) ops s.

(** What the constructor fixes: the configuration and the SDK. *)
Definition setup (s : State) : AzureTTSConfig * option string :=
  (config s, sdk_fault s).

(** The request a call of [speak] on [s] sends, if any (lines 46-48, 79). *)
Definition cloud_requests (s : State) (text : string) (options : SpeechOptions)
  : list effect :=
  if cloud_configured (config s) then
    match sdk_fault s with
    | None => [SpeakSsmlAsync (synthesis_request (config s) text options)]
    | Some _ => []
    end
  else [].

(** The requests a run sends when started from [s], oldest first. *)
Definition requests (s : State) (ops : list operation) : list effect :=
  flat_map (fun op =>
              match op with
              | CallSpeak text options => cloud_requests s text options
              | _ => []
              end) ops.

(** ** More observations *)

Definition is_close (e : effect) : bool :=
  match e with
  | SynthesizerClose => true
  | _ => false
  end.

(** How often [synthesizer.close()] has been called. *)
Definition closes (s : State) : nat := length (List.filter is_close (trace s)).

Definition is_cancel (e : effect) : bool :=
  match e with
  | SynthCancel => true
  | _ => false
  end.

(** How often [speechSynthesis.cancel()] has been called. *)
Definition cancels (s : State) : nat := length (List.filter is_cancel (trace s)).

(** The events of the audio element: [ended] and [error]. *)
Definition audio_event (ev : event) : bool :=
  match ev with
  | AudioEnded | AudioError => true
  | _ => false
  end.


(** ** Sample data *)

Definition sample_synthesizer : SpeechSynthesis :=
  {| voices := [ {| voice_name := "Ting-Ting"; voice_lang := "zh-CN" |};
                 {| voice_name := "Samantha"; voice_lang := "en-US" |} ];
     queue := [];
     onvoiceschanged := None |}.

(** The exported singleton [speechService]: the default configuration, in
    a browser with a synthesizer. *)
Definition speechService : State :=
  new_SpeechService DEFAULT_CONFIG (Some sample_synthesizer) None.

(** A service constructed with a real key. *)
Definition configured_service : State :=
  new_SpeechService (with_key "0123456789abcdef" DEFAULT_CONFIG)
    (Some sample_synthesizer) None.

(** A service that never played, in a browser without a synthesizer, and
    the same with an audio element left from an earlier playback. *)
Definition silent_service : State :=
  new_SpeechService DEFAULT_CONFIG None None.

Definition idle_service : State :=
  with_audio (Some fresh_audio) silent_service.

Definition mp3 : list Byte.byte := [Byte.x49; Byte.x44; Byte.x33].

Definition triple_rate : SpeechOptions :=
  set_rate (Some (JS.Dec false 3 0)) no_options.

(** [configured_service] after a call whose cloud request failed and whose
    utterance is being spoken. *)
Definition speaking_locally : State :=
  handle (SynthesisDone 1 (NotCompleted "quota exceeded"))
    (snd (speak "一" no_options configured_service)).

(** A browser whose voices have not been loaded yet. *)
Definition loading_service : State :=
  new_SpeechService DEFAULT_CONFIG
    (Some {| voices := []; queue := []; onvoiceschanged := None |}) None.

Example to_string_half : JS.to_string (JS.Dec false 5 1) = "0.5".
Proof. reflexivity. Qed.

Example to_string_two : JS.to_string (JS.Dec false 20 1) = "2".
Proof. reflexivity. Qed.

Example to_string_small : JS.to_string (JS.Dec true 125 3) = "-0.125".
Proof. reflexivity. Qed.

Example to_string_big : JS.to_string (JS.Dec false 1250 1) = "125".
Proof. reflexivity. Qed.

Example includes_zh : JS.includes "zh-CN" "zh" = true /\ JS.includes "en-US" "zh" = false
  /\ JS.includes "yue-zh" "zh" = true /\ JS.includes "abc" "" = true.
Proof. repeat split; reflexivity. Qed.

(** ** The promise table *)

Local Open Scope list_scope.

(** What is sent to the backends stays folded while the control flow runs. *)
Arguments synthesis_request : simpl never.
Arguments make_utterance : simpl never.
Arguments select_voice : simpl never.
Arguments chineseVoices : simpl never.
Arguments cloud_configured : simpl never.
Arguments JS.truthy_string : simpl never.

Lemma lookup_fresh (ps l : list promise) (k : nat) :
  (ps ++ l) !! (length ps + k) = l !! k.
Proof. induction ps as [|x ps IH]; [reflexivity | exact IH]. Qed.

Lemma lookup_fresh0 (ps l : list promise) : (ps ++ l) !! length ps = l !! 0.
Proof. rewrite <- (Nat.add_0_r (length ps)) at 1. apply lookup_fresh. Qed.

Lemma alter_fresh (f : promise -> promise) (ps l : list promise) (k : nat) :
  alter f (length ps + k) (ps ++ l) = ps ++ alter f k l.
Proof. apply alter_app_r. Qed.

Lemma alter_fresh0 (f : promise -> promise) (ps l : list promise) :
  alter f (length ps) (ps ++ l) = ps ++ alter f 0 l.
Proof. rewrite <- (Nat.add_0_r (length ps)) at 1. apply alter_app_r. Qed.

Lemma length_fresh (ps l : list promise) : length (ps ++ l) = length ps + length l.
Proof. apply length_app. Qed.

(** Lookups and updates in a table [ps ++ l] with a concrete suffix [l]. *)
Ltac table :=
  repeat first
    [ rewrite <- !app_assoc
    | rewrite lookup_fresh
    | rewrite lookup_fresh0
    | rewrite alter_fresh
    | rewrite alter_fresh0
    | rewrite length_fresh
    | rewrite app_nil_r
    | progress cbn ].

(** ** Closed forms of stop, speakWithWebSpeech and playAudioBuffer *)

Lemma stop_normal (s : State) : stop s = Normal (stopped s).
Proof.
  destruct s as [c a sp sy f ps urls nu tr].
  destruct a as [el|], sy as [y|], sp; vm_compute; reflexivity.
Qed.

Lemma speakWithWebSpeech_unsupported (text : string) (o : SpeechOptions) (s : State) :
  speechSynthesis s = None ->
  speakWithWebSpeech text o s
  = (length (promises s),
     with_promises
       (promises s ++
          [{| pr_origin := OfWebSpeech;
              pr_status := Settled (Rejected (Error "您的浏览器不支持语音合成")) |}]) s).
Proof.
  destruct s as [c a sp sy f ps urls nu tr]; cbn. intros ->.
  unfold speakWithWebSpeech, new_promise, fulfil, status_of, set_status.
  cbn. rewrite lookup_fresh0. cbn. rewrite alter_fresh0. reflexivity.
Qed.

Lemma speakWithWebSpeech_started (text : string) (o : SpeechOptions) (s : State)
    (sy : SpeechSynthesis) :
  speechSynthesis s = Some sy ->
  speakWithWebSpeech text o s = (length (promises s), local_session text o sy s).
Proof.
  destruct s as [c a sp y f ps urls nu tr]; cbn. intros ->.
  destruct o as [r pi v [[|ch vn]|]], sp, a as [el|]; vm_compute; reflexivity.
Qed.

Lemma playAudioBuffer_normal (audioData : list Byte.byte) (s : State) :
  playAudioBuffer audioData s = (length (promises s), cloud_session audioData s).
Proof.
  destruct s as [c a sp y f ps urls nu tr].
  destruct a as [el|]; vm_compute; reflexivity.
Qed.

(** ** Running the service symbolically *)

(** The methods are run in call order: a method is unfolded only once the
    state it is applied to has been computed, so that no unevaluated call is
    ever copied. *)
Arguments speak : simpl never.
Arguments synthesizeSpeech : simpl never.
Arguments speakWithWebSpeech : simpl never.
Arguments playAudioBuffer : simpl never.
Arguments getAvailableVoices : simpl never.
Arguments catch_block : simpl never.
Arguments fallback_k : simpl never.
Arguments webspeech_k : simpl never.
Arguments synthesize_k : simpl never.
Arguments resume : simpl never.
Arguments settle : simpl never.
Arguments fulfil : simpl never.
Arguments await : simpl never.
Arguments new_promise : simpl never.
Arguments set_status : simpl never.
Arguments status_of : simpl never.
Arguments origin_of : simpl never.
Arguments result_of : simpl never.
Arguments handle : simpl never.
Arguments stop : simpl never.
Arguments stopped : simpl never.
Arguments local_session : simpl never.
Arguments cloud_session : simpl never.
Arguments local_utterance : simpl never.
Arguments selected_voice : simpl never.
Arguments stop_calls : simpl never.
Arguments voice_calls : simpl never.
Arguments new_audio_calls : simpl never.
Arguments synth_speak : simpl never.
Arguments createObjectURL : simpl never.
Arguments revokeObjectURL : simpl never.
Arguments dequeue : simpl never.
Arguments set_paused : simpl never.
Arguments update_audio : simpl never.
Arguments installed_voices : simpl never.
Arguments emit : simpl never.
Arguments with_audio : simpl never.
Arguments with_isSpeaking : simpl never.
Arguments with_speechSynthesis : simpl never.
Arguments with_promises : simpl never.
Arguments with_object_urls : simpl never.

Ltac head_of t :=
  lazymatch t with
  | ?f _ => head_of f
  | _ => t
  end.

Ltac open_call t :=
  let h := head_of t in
  let t' := eval cbv beta delta [h] in t in
  change t with t'.

(** One step of a call whose state argument is computed. *)
Ltac step_call t :=
  lazymatch t with
  | stop ?s => rewrite (stop_normal s)
  | speakWithWebSpeech ?x ?o (Build_State ?c ?a ?sp (Some ?sy) ?f ?ps ?u ?n ?tr) =>
      rewrite (speakWithWebSpeech_started x o
                 (Build_State c a sp (Some sy) f ps u n tr) sy eq_refl)
  | speakWithWebSpeech ?x ?o (Build_State ?c ?a ?sp None ?f ?ps ?u ?n ?tr) =>
      rewrite (speakWithWebSpeech_unsupported x o
                 (Build_State c a sp None f ps u n tr) eq_refl)
  | playAudioBuffer ?d ?s => rewrite (playAudioBuffer_normal d s)
  | _ => open_call t
  end.

Ltac use_facts :=
  match goal with
  | H : cloud_configured _ = _ |- _ => rewrite H
  | H : synthesis_outcome _ = _ |- _ => rewrite H
  end.

(** Run every call found on a computed state, each in a goal of its own, and
    put the result back wherever the call occurs. *)
Ltac run_service :=
  cbn;
  repeat (first [ run_call | use_facts ]; cbn)
with run_call :=
  match goal with
  | |- context [?g (Build_State ?c ?a ?sp ?sy ?f ?ps ?u ?n ?tr)] =>
      let t := constr:(g (Build_State c a sp sy f ps u n tr)) in
      lazymatch type of t with
      | State => idtac
      | prod nat State => idtac
      | completion => idtac
      | option status => idtac
      | option origin => idtac
      | option outcome => idtac
      | list SpeechSynthesisVoice => idtac
      end;
      let H := fresh "Hcall" in
      eassert (H : t = _);
      [ step_call t; table; run_service; reflexivity
      | progress rewrite H; clear H ]
  end.

Ltac in_trace :=
  solve [ cbn; repeat first [ left; reflexivity | apply in_or_app; right; cbn | right ] ].

(** ** The fallback cascade *)

(** C4.  When the cloud backend fails with an error [E] (the SDK throws
    while the request is set up, or [speakSsmlAsync] reports a failure) the
    error is logged and the local backend is tried once.  If the local
    backend fails too (no [speechSynthesis], or the utterance reports an
    error) the promise of [speak] is rejected with [E], not with the local
    error.  If the utterance ends, the promise is resolved, and the console
    log carries [E]. *)
Theorem speak_rejects_with_the_cloud_error (s : State) (text : string)
    (o : SpeechOptions) (E : error) (s1 : State) :
  cloud_configured (config s) = true ->
  cloud_fails s text o E s1 ->
  let call := length (promises s) in
  let q := call + 2 in
  fst (speak text o s) = call
  /\ In (ConsoleError "语音合成失败:" E) (trace s1)
  /\ match speechSynthesis s with
     | None => result_of call s1 = Some (Rejected E)
     | Some _ =>
         result_of call s1 = None
         /\ (exists u, head (trace s1) = Some (SynthSpeak q u))
         /\ (forall code,
               result_of call (handle (UtteranceError q code) s1)
               = Some (Rejected E))
         /\ result_of call (handle (UtteranceEnd q) s1) = Some (Resolved Undefined)
         /\ In (ConsoleError "语音合成失败:" E) (trace (handle (UtteranceEnd q) s1))
     end.
Proof.
  intros Hc Hf call q; subst call q.
  destruct Hf as [name Hn | r e Hn Hr];
    destruct s as [c a sp [y|] f ps urls nu tr]; cbn in *; subst.
  all: run_service.
  all: (split; [reflexivity|]); (split; [in_trace|]).
  all: repeat split; intros; run_service.
  all: first [reflexivity | eexists; reflexivity | in_trace].
Qed.

(** Cloud reports "quota exceeded", then the utterance fails too. *)
Lemma speak_rejects_with_the_cloud_error_witness :
  result_of 0
    (handle (UtteranceError 2 "synthesis-failed")
       (handle (SynthesisDone 1 (NotCompleted "quota exceeded"))
          (snd (speak "你好" no_options configured_service))))
  = Some (Rejected (Error "语音合成失败: quota exceeded")).
Proof.
  pose proof (speak_rejects_with_the_cloud_error configured_service "你好"
                no_options _ _ eq_refl
                (fails_by_callback configured_service "你好" no_options
                   (NotCompleted "quota exceeded") _ eq_refl eq_refl)) as H.
  destruct H as (_ & _ & H).
  exact (proj1 (proj2 (proj2 H)) "synthesis-failed").
Defined.

(** ** stop *)

Lemma stopped_iter (n : nat) (s : State) :
  Nat.iter n (fun t => after (stop t)) (stopped s)
  = Nat.iter n stopped (stopped s).
Proof.
  induction n as [|n IH]; [reflexivity|].
  rewrite !Nat.iter_succ, IH, stop_normal. reflexivity.
Qed.

Lemma stopped_idle (s : State) :
  isSpeaking s = false -> audio_playing s = false ->
  audio (stopped s) = audio s
  /\ speechSynthesis (stopped s) = speechSynthesis s
  /\ isSpeaking (stopped s) = isSpeaking s
  /\ promises (stopped s) = promises s
  /\ object_urls (stopped s) = object_urls s
  /\ trace (stopped s)
     = match audio s with
       | Some _ => [AudioSeekToStart; AudioPause]
       | None => []
       end ++ trace s.
Proof.
  destruct s as [c a sp sy f ps urls nu tr]; cbn.
  intros -> Hp.
  destruct a as [[sr pa oe or]|], sy as [y|]; cbn in *;
    try (apply negb_false_iff in Hp; subst pa);
    repeat split; reflexivity.
Qed.

(** C7.  [stop] never throws: on every state it completes normally, the
    guards on [this.audio] and [window.speechSynthesis] keeping every method
    call off [null] and [undefined].  After it, and after any number of
    further calls, [isPlaying] is [false] and the next call completes
    normally again.  When nothing is playing it is a no-op: the fields of
    the service, the audio element, the synthesizer queue, the promises and
    the object URLs are unchanged, [speechSynthesis.cancel] is not called,
    and the only calls made are [pause] and the seek to the start on an
    audio element that exists and is already paused; on a service that never
    played audio the state is unchanged altogether. *)
Theorem stop_never_throws_and_clears_isPlaying (s : State) :
  exists s',
    stop s = Normal s'
    /\ isPlaying s' = false
    /\ (forall n,
          let t := Nat.iter n (fun t => after (stop t)) s' in
          isPlaying t = false /\ exists t', stop t = Normal t' /\ isPlaying t' = false)
    /\ (isPlaying s = false -> audio_playing s = false ->
        audio s' = audio s
        /\ speechSynthesis s' = speechSynthesis s
        /\ isSpeaking s' = isSpeaking s
        /\ promises s' = promises s
        /\ object_urls s' = object_urls s
        /\ trace s'
           = match audio s with
             | Some _ => [AudioSeekToStart; AudioPause]
             | None => []
             end ++ trace s)
    /\ (isPlaying s = false -> audio s = None -> s' = s).
Proof.
  exists (stopped s). split; [apply stop_normal|].
  split; [reflexivity|]. split; [|split].
  - intros n t. subst t. rewrite stopped_iter. split.
    + destruct n; [reflexivity | rewrite Nat.iter_succ; reflexivity].
    + eexists. split; [apply stop_normal | reflexivity].
  - apply stopped_idle.
  - destruct s as [c a sp sy f ps urls nu tr]; cbn.
    intros -> ->. destruct sy; reflexivity.
Qed.

(** An idle service with an audio element left over from an earlier
    playback, and a service that never played. *)
Lemma stop_never_throws_and_clears_isPlaying_witness :
  (exists s', stop idle_service = Normal s'
              /\ trace s' = [AudioSeekToStart; AudioPause])
  /\ stop silent_service = Normal silent_service.
Proof.
  split.
  - destruct (stop_never_throws_and_clears_isPlaying idle_service)
      as (s' & Hs & _ & _ & Hidle & _).
    exists s'. split; [exact Hs|].
    destruct (Hidle eq_refl eq_refl) as (_ & _ & _ & _ & _ & Ht). exact Ht.
  - destruct (stop_never_throws_and_clears_isPlaying silent_service)
      as (s' & Hs & _ & _ & _ & Hfresh).
    rewrite Hs. f_equal. exact (Hfresh eq_refl eq_refl).
Defined.

(** ** Only synthesizeSpeech reaches the network *)

Lemma quiet_fulfil (p : nat) (o : outcome) (s : State) :
  network_calls (fulfil p o s) = network_calls s.
Proof. unfold fulfil. destruct (status_of p s) as [[w|o']|]; reflexivity. Qed.

Lemma quiet_await (p : nat) (fr : frame) (k : outcome -> State -> State) (s : State) :
  (forall o t, network_calls (k o t) = network_calls t) ->
  network_calls (await p fr k s) = network_calls s.
Proof.
  intros Hk. unfold await. destruct (status_of p s) as [[w|o']|]; auto.
Qed.

Lemma quiet_stop_calls a y sp : List.filter is_network_call (stop_calls a y sp) = [].
Proof. destruct a, y, sp; reflexivity. Qed.

Lemma quiet_voice_calls o : List.filter is_network_call (voice_calls o) = [].
Proof. unfold voice_calls. destruct (JS.truthy_string (opt_voice o)); reflexivity. Qed.

Lemma quiet_speakWithWebSpeech (text : string) (o : SpeechOptions) (s : State) :
  network_calls (snd (speakWithWebSpeech text o s)) = network_calls s.
Proof.
  destruct (speechSynthesis s) as [sy|] eqn:Hsy.
  - rewrite (speakWithWebSpeech_started _ _ _ _ Hsy).
    unfold network_calls, local_session; cbn.
    rewrite !List.filter_app, quiet_stop_calls, quiet_voice_calls. reflexivity.
  - rewrite (speakWithWebSpeech_unsupported _ _ _ Hsy). reflexivity.
Qed.

Lemma quiet_playAudioBuffer (audioData : list Byte.byte) (s : State) :
  network_calls (snd (playAudioBuffer audioData s)) = network_calls s.
Proof.
  rewrite playAudioBuffer_normal. unfold network_calls, cloud_session; cbn.
  rewrite List.filter_app. destruct (audio s); reflexivity.
Qed.

Lemma quiet_fallback_k (call : nat) (e : error) (o : outcome) (s : State) :
  network_calls (fallback_k call e o s) = network_calls s.
Proof. unfold fallback_k. destruct o; rewrite quiet_fulfil; reflexivity. Qed.

Lemma quiet_catch_block (call : nat) (text : string) (o : SpeechOptions)
    (e : error) (s : State) :
  network_calls (catch_block call text o e s) = network_calls s.
Proof.
  unfold catch_block.
  destruct (speakWithWebSpeech text o (emit (ConsoleError "语音合成失败:" e) s))
    as [p t] eqn:Hw.
  rewrite quiet_await by (intros; apply quiet_fallback_k).
  change t with (snd (p, t)). rewrite <- Hw, quiet_speakWithWebSpeech. reflexivity.
Qed.

Lemma quiet_webspeech_k (call : nat) (text : string) (o : SpeechOptions)
    (r : outcome) (s : State) :
  network_calls (webspeech_k call text o r s) = network_calls s.
Proof.
  unfold webspeech_k. destruct r; [apply quiet_fulfil | apply quiet_catch_block].
Qed.

Lemma quiet_local_then (call : nat) (text : string) (o : SpeechOptions) (s : State) :
  network_calls
    (let '(p, t) := speakWithWebSpeech text o s in
     await p {| fr_call := call; fr_cont := AwaitWebSpeech text o |}
       (webspeech_k call text o) t)
  = network_calls s.
Proof.
  destruct (speakWithWebSpeech text o s) as [p t] eqn:Hw.
  rewrite quiet_await by (intros; apply quiet_webspeech_k).
  change t with (snd (p, t)). rewrite <- Hw. apply quiet_speakWithWebSpeech.
Qed.

Lemma quiet_synthesize_k (call : nat) (text : string) (o : SpeechOptions)
    (r : outcome) (s : State) :
  network_calls (synthesize_k call text o r s) = network_calls s.
Proof.
  unfold synthesize_k. destruct r as [v|e]; [|apply quiet_catch_block].
  destruct v as [| |d|ns].
  - apply quiet_local_then.
  - apply quiet_local_then.
  - destruct (playAudioBuffer d s) as [p t] eqn:Hp. rewrite quiet_fulfil.
    change t with (snd (p, t)). rewrite <- Hp. apply quiet_playAudioBuffer.
  - apply quiet_local_then.
Qed.

Lemma quiet_settle (p : nat) (o : outcome) (s : State) :
  network_calls (settle p o s) = network_calls s.
Proof.
  unfold settle. destruct (status_of p s) as [[[fr|]|o']|]; try reflexivity.
  unfold resume. destruct (fr_cont fr).
  - rewrite quiet_synthesize_k. reflexivity.
  - rewrite quiet_webspeech_k. reflexivity.
  - rewrite quiet_fallback_k. reflexivity.
Qed.

Lemma handle_makes_no_network_call (ev : event) (s : State) :
  network_calls (handle ev s) = network_calls s.
Proof.
  destruct ev; unfold handle.
  - destruct (origin_of p s) as [[]|]; try reflexivity.
    rewrite quiet_settle. reflexivity.
  - destruct (origin_of p s) as [[]|]; try reflexivity. rewrite quiet_settle.
    unfold dequeue. destruct (speechSynthesis s); reflexivity.
  - destruct (origin_of p s) as [[]|]; try reflexivity. rewrite quiet_settle.
    unfold dequeue. destruct (speechSynthesis s); reflexivity.
  - destruct (audio s ≫= onended) as [h|]; try reflexivity. rewrite quiet_settle.
    unfold set_paused, update_audio. destruct (audio s); reflexivity.
  - destruct (audio s ≫= onerror) as [h|]; try reflexivity. rewrite quiet_settle.
    unfold set_paused, update_audio. destruct (audio s); reflexivity.
  - destruct (origin_of p s) as [[]|]; try reflexivity. rewrite quiet_settle.
    unfold set_paused, update_audio. destruct (audio s); reflexivity.
  - destruct (speechSynthesis s) as [sy|]; try reflexivity.
    destruct (onvoiceschanged sy); try reflexivity.
    rewrite quiet_settle. reflexivity.
Qed.

Lemma deliver_makes_no_network_call (evs : list event) (s : State) :
  network_calls (deliver evs s) = network_calls s.
Proof.
  revert s. induction evs as [|ev evs IH]; intros s; [reflexivity|].
  cbn. rewrite IH. apply handle_makes_no_network_call.
Qed.

(** ** The placeholder credential *)

(** C5.  With the placeholder credential [speak] makes no network call,
    neither while it runs nor in anything that runs later on the events of
    the browser, and goes to the local backend.  Without
    [speechSynthesis] no backend is called at all and the promise is
    rejected with the unsupported-browser error.  With it, the utterance
    for the text is handed to the synthesizer, after [stop] and the lookup
    of the voice, and the promise is resolved when that utterance ends. *)
Theorem placeholder_credential_goes_local (s : State) (text : string)
    (o : SpeechOptions) :
  cloud_configured (config s) = false ->
  let call := length (promises s) in
  let q := call + 2 in
  let s1 := snd (speak text o s) in
  fst (speak text o s) = call
  /\ (forall evs, network_calls (deliver evs s1) = network_calls s)
  /\ match speechSynthesis s with
     | None =>
         result_of call s1 = Some (Rejected (Error "您的浏览器不支持语音合成"))
         /\ backend_calls s1 = backend_calls s
     | Some sy =>
         result_of call s1 = None
         /\ trace s1
            = SynthSpeak q (local_utterance (config s) text o sy)
              :: voice_calls o ++ stop_calls (audio s) (Some sy) (isSpeaking s)
              ++ trace s
         /\ utt_text (local_utterance (config s) text o sy) = text
         /\ result_of call (handle (UtteranceEnd q) s1) = Some (Resolved Undefined)
     end.
Proof.
  intros Hc call q s1; subst call q s1.
  split; [|split].
  - destruct s as [c a sp [y|] f ps urls nu tr]; cbn in *; run_service; reflexivity.
  - intros evs. rewrite deliver_makes_no_network_call.
    destruct s as [c a sp [y|] f ps urls nu tr]; cbn in *; run_service;
      rewrite ?List.filter_app, ?quiet_voice_calls, ?quiet_stop_calls; reflexivity.
  - destruct s as [c a sp [y|] f ps urls nu tr]; cbn in *; run_service.
    + repeat split; run_service; reflexivity.
    + split; reflexivity.
Qed.

Lemma placeholder_credential_goes_local_witness :
  network_calls (snd (speak "你好" no_options speechService)) = []
  /\ result_of 0 (handle (UtteranceEnd 2) (snd (speak "你好" no_options speechService)))
     = Some (Resolved Undefined).
Proof.
  destruct (placeholder_credential_goes_local speechService "你好" no_options eq_refl)
    as (_ & Hn & _ & _ & _ & Hr).
  specialize (Hn []).
  vm_compute in Hn. vm_compute in Hr. vm_compute.
  split; [exact Hn | exact Hr].
Defined.

(** When the utterance fails, the [catch] block tries the local backend a
    second time; the first local error is the one reported if that fails
    as well. *)
Lemma placeholder_credential_retries_locally (s : State) (text : string)
    (o : SpeechOptions) (sy : SpeechSynthesis) (code : string) :
  cloud_configured (config s) = false ->
  speechSynthesis s = Some sy ->
  let call := length (promises s) in
  let s2 := handle (UtteranceError (call + 2) code) (snd (speak text o s)) in
  result_of call s2 = None
  /\ (exists u, head (trace s2) = Some (SynthSpeak (call + 3) u))
  /\ result_of call (handle (UtteranceEnd (call + 3)) s2) = Some (Resolved Undefined)
  /\ forall code',
       result_of call (handle (UtteranceError (call + 3) code') s2)
       = Some (Rejected (Error ("语音合成错误: " ++ code))).
Proof.
  intros Hc Hsy call s2; subst call s2.
  destruct s as [c a sp y f ps urls nu tr]; cbn in *; subst.
  run_service. repeat split; intros; run_service;
    first [reflexivity | eexists; reflexivity].
Qed.

(** ** Playing the cloud audio *)

Lemma not_in_filter_out (url : nat) (urls : list nat) :
  ~ In url (List.filter (fun u => negb (Nat.eqb u url)) urls).
Proof.
  intros H. apply List.filter_In in H. destruct H as [_ H].
  rewrite Nat.eqb_refl in H. discriminate.
Qed.

(** C6, as the code has it.  A call of [playAudioBuffer] creates one
    object URL, live and not released while the audio plays.  Each of the
    three handlers (the audio ends, the audio element reports an error, the
    [play] attempt is rejected) releases it: when one of them runs,
    [revokeObjectURL] is called once, the URL is no longer live, the promise
    is settled accordingly and [isPlaying] is [false].  Nothing keeps a
    second handler from releasing it again: a failure reported both by the
    [error] event and by the rejection of [play], in either order, calls
    [revokeObjectURL] twice for the URL.  And no handler runs when [stop]
    ends the playback: the URL is then not released at all. *)
Theorem object_url_released_by_each_handler (s : State)
    (audioData : list Byte.byte) (name : string) :
  let url := next_url s in
  let p := length (promises s) in
  let s1 := snd (playAudioBuffer audioData s) in
  fst (playAudioBuffer audioData s) = p
  /\ In (CreateObjectURL audioData url) (trace s1)
  /\ releases url s1 = releases url s
  /\ In url (object_urls s1)
  /\ (forall x,
        let s2 := handle (exit_event p x) s1 in
        releases url s2 = S (releases url s)
        /\ ~ In url (object_urls s2)
        /\ result_of p s2 = Some (exit_outcome x)
        /\ isPlaying s2 = false)
  /\ releases url (handle (PlayRejected p name) (handle AudioError s1))
     = S (S (releases url s))
  /\ releases url (handle AudioError (handle (PlayRejected p name) s1))
     = S (S (releases url s))
  /\ (let s2 := after (stop s1) in
      audio_playing s2 = false
      /\ isPlaying s2 = false
      /\ releases url s2 = releases url s
      /\ In url (object_urls s2)).
Proof.
  intros url p s1; subst url p s1.
  destruct s as [c a sp sy f ps urls nu tr].
  split; [run_service; reflexivity|].
  split; [run_service; in_trace|].
  split; [run_service; unfold releases, new_audio_calls; cbn;
          rewrite List.filter_app; destruct a; reflexivity|].
  split; [run_service; left; reflexivity|].
  split; [|split; [|split]].
  - intros x s2; subst s2.
    destruct x as [| |nm], a as [el|]; run_service;
      unfold releases, new_audio_calls; cbn; rewrite ?Nat.eqb_refl; cbn;
      repeat split; auto using not_in_filter_out.
  - run_service. unfold releases, new_audio_calls; cbn; rewrite ?Nat.eqb_refl; cbn.
    rewrite ?List.filter_app. destruct a; reflexivity.
  - run_service. unfold releases, new_audio_calls; cbn; rewrite ?Nat.eqb_refl; cbn.
    rewrite ?List.filter_app. destruct a; reflexivity.
  - run_service. unfold releases; cbn. rewrite ?List.filter_app.
    repeat split; try (destruct a, sy, sp; reflexivity); try in_trace.
Qed.

(** A buffer the browser cannot play: the element reports an error and the
    promise of [play] is rejected. *)
Lemma object_url_released_by_each_handler_witness :
  let s1 := snd (playAudioBuffer [] configured_service) in
  releases 0 (handle (PlayRejected 0 "NotSupportedError") (handle AudioError s1)) = 2
  /\ releases 0 (after (stop s1)) = 0
  /\ object_urls (after (stop s1)) = [0].
Proof.
  destruct (object_url_released_by_each_handler configured_service []
              "NotSupportedError")
    as (_ & _ & _ & _ & _ & H1 & _ & _ & _ & H2 & _).
  vm_compute in H1, H2. vm_compute. repeat split; assumption.
Defined.

(** ** The missing await *)

(** C1, as the code has it.  On the cloud path the promise of [speak] is
    resolved as soon as playback has been started: line 169 calls
    [playAudioBuffer] without [await].  At that point the promise of
    [playAudioBuffer] is still pending and the audio is playing.  A playback
    error that arrives later rejects the promise of [playAudioBuffer] only:
    the promise of [speak] stays resolved, nothing is logged and the local
    backend is not tried. *)
Theorem speak_resolves_before_playback_ends (s : State) (text : string)
    (o : SpeechOptions) (audioData : list Byte.byte) :
  cloud_configured (config s) = true ->
  sdk_fault s = None ->
  let call := length (promises s) in
  let playback := call + 2 in
  let s1 := handle (SynthesisDone (call + 1) (Completed audioData))
              (snd (speak text o s)) in
  let s2 := handle AudioError s1 in
  fst (speak text o s) = call
  /\ result_of call s1 = Some (Resolved Undefined)
  /\ result_of playback s1 = None
  /\ isPlaying s1 = true
  /\ audio_playing s1 = true
  /\ result_of playback s2 = Some (Rejected (Error "音频播放错误: [object Event]"))
  /\ result_of call s2 = Some (Resolved Undefined)
  /\ trace s2 = RevokeObjectURL (next_url s) :: trace s1.
Proof.
  intros Hc Hf call playback s1 s2; subst call playback s1 s2.
  destruct s as [c a sp sy f ps urls nu tr]; cbn in *; subst.
  run_service. repeat split.
Qed.

(** A configured credential, the text "你好", the cloud returns audio, and
    the audio then fails to play. *)
Lemma speak_resolves_before_playback_ends_witness :
  result_of 0
    (handle (SynthesisDone 1 (Completed mp3))
       (snd (speak "你好" no_options configured_service)))
  = Some (Resolved Undefined)
  /\ audio_playing
       (handle (SynthesisDone 1 (Completed mp3))
          (snd (speak "你好" no_options configured_service)))
     = true
  /\ result_of 0
       (handle AudioError
          (handle (SynthesisDone 1 (Completed mp3))
             (snd (speak "你好" no_options configured_service))))
     = Some (Resolved Undefined)
  /\ result_of 2
       (handle AudioError
          (handle (SynthesisDone 1 (Completed mp3))
             (snd (speak "你好" no_options configured_service))))
     = Some (Rejected (Error "音频播放错误: [object Event]")).
Proof.
  destruct (speak_resolves_before_playback_ends configured_service "你好"
              no_options mp3 eq_refl eq_refl)
    as (_ & H1 & _ & _ & H2 & H3 & H4 & _).
  vm_compute in H1, H2, H3, H4. vm_compute.
  repeat split; assumption.
Defined.

(** ** Two sessions at once *)

(** C3, as the code has it.  [playAudioBuffer] does not call [stop]: when
    the cloud returns audio the utterances the synthesizer is speaking are
    left as they are, no [pause] and no [cancel] is issued, and the audio
    starts playing next to them. *)
Theorem cloud_playback_leaves_the_active_session (s : State) (text : string)
    (o : SpeechOptions) (audioData : list Byte.byte) :
  cloud_configured (config s) = true ->
  sdk_fault s = None ->
  let call := length (promises s) in
  let s1 := handle (SynthesisDone (call + 1) (Completed audioData))
              (snd (speak text o s)) in
  utterances_speaking s1 = utterances_speaking s
  /\ audio_playing s1 = true
  /\ active_sessions s1 = S (length (utterances_speaking s))
  /\ trace s1
     = AudioPlay :: AudioSetSrc (next_url s)
       :: new_audio_calls (audio s)
       ++ CreateObjectURL audioData (next_url s)
       :: SynthesizerClose
       :: SpeakSsmlAsync (synthesis_request (config s) text o)
       :: trace s
  /\ result_of call s1 = Some (Resolved Undefined).
Proof.
  intros Hc Hf call s1; subst call s1.
  destruct s as [c a sp sy f ps urls nu tr]; cbn in *; subst.
  run_service. repeat split.
Qed.

(** The sibling path does call [stop] first (line 115): starting a local
    utterance empties the synthesizer queue when the service was speaking
    and pauses the audio element, so that only the new utterance is active. *)
Lemma local_playback_stops_the_active_session (s : State) (text : string)
    (o : SpeechOptions) (sy : SpeechSynthesis) :
  speechSynthesis s = Some sy ->
  isSpeaking s = true ->
  let s1 := snd (speakWithWebSpeech text o s) in
  utterances_speaking s1 = [length (promises s)]
  /\ audio_playing s1 = false
  /\ active_sessions s1 = 1
  /\ isPlaying s1 = true.
Proof.
  intros Hsy Hsp s1; subst s1.
  rewrite (speakWithWebSpeech_started _ _ _ _ Hsy).
  unfold active_sessions, audio_playing, utterances_speaking, local_session; cbn.
  rewrite Hsp. destruct (audio s); repeat split.
Qed.

(** A first call fell back to the local backend and its utterance is being
    spoken; a second call gets audio from the cloud. *)
Lemma cloud_playback_leaves_the_active_session_witness :
  utterances_speaking speaking_locally = [2]
  /\ utterances_speaking
       (handle (SynthesisDone 4 (Completed mp3))
          (snd (speak "二" no_options speaking_locally)))
     = [2]
  /\ audio_playing
       (handle (SynthesisDone 4 (Completed mp3))
          (snd (speak "二" no_options speaking_locally)))
     = true
  /\ active_sessions
       (handle (SynthesisDone 4 (Completed mp3))
          (snd (speak "二" no_options speaking_locally)))
     = 2.
Proof.
  assert (Hs : utterances_speaking speaking_locally = [2]) by (vm_compute; reflexivity).
  destruct (cloud_playback_leaves_the_active_session speaking_locally "二"
              no_options mp3 eq_refl eq_refl)
    as (H1 & H2 & H3 & _).
  change (length (promises speaking_locally) + 1) with 4 in H1, H2, H3.
  rewrite Hs in H1, H3.
  repeat split; assumption.
Defined.

(** ** What is sent to the cloud *)

Lemma speak_sends_the_request (s : State) (text : string) (o : SpeechOptions) :
  cloud_configured (config s) = true ->
  sdk_fault s = None ->
  trace (snd (speak text o s))
  = SpeakSsmlAsync (synthesis_request (config s) text o) :: trace s
  /\ result_of (fst (speak text o s)) (snd (speak text o s)) = None.
Proof.
  intros Hc Hf.
  destruct s as [c a sp sy f ps urls nu tr]; cbn in *; subst.
  run_service. split; reflexivity.
Qed.

Lemma or_string_nonempty (v d : string) : v <> "" -> JS.or_string (Some v) d = v.
Proof. destruct v; [congruence | reflexivity]. Qed.

(** ** Zero is taken for a missing option *)






























(** ** Listing the voices *)

Lemma prefix_spec (a s : string) :
  String.prefix a s = true <-> exists post, s = (a ++ post)%string.
Proof.
  revert s. induction a as [|ch a IH]; intros s.
  - destruct s; cbn; split; eauto.
  - destruct s as [|ch' s]; cbn.
    + split; [discriminate | intros [post H]; discriminate].
    + destruct (Ascii.ascii_dec ch ch') as [->|Hne].
      * rewrite IH. split; intros [post H]; exists post; congruence.
      * split; [discriminate | intros [post H]; congruence].
Qed.

Lemma append_assoc (a b c : string) : ((a ++ b) ++ c = a ++ b ++ c)%string.
Proof. induction a as [|ch a IH]; cbn; congruence. Qed.

Lemma includes_unfold (s sub : string) :
  JS.includes s sub
  = if String.prefix sub s then true
    else match s with
         | EmptyString => false
         | String _ rest => JS.includes rest sub
         end.
Proof. destruct s; reflexivity. Qed.

(** [includes] is the substring test. *)
Lemma includes_spec (s sub : string) :
  JS.includes s sub = true
  <-> exists pre post, s = (pre ++ sub ++ post)%string.
Proof.
  induction s as [|ch s IH]; rewrite includes_unfold.
  - destruct (String.prefix sub "") eqn:Hp.
    + apply prefix_spec in Hp as [post Hp].
      split; [intros _; exists "", post; exact Hp | reflexivity].
    + split; [discriminate|]. intros (pre & post & H).
      destruct pre; [|discriminate]. cbn in H.
      assert (String.prefix sub "" = true) by (apply prefix_spec; eauto).
      congruence.
  - destruct (String.prefix sub (String ch s)) eqn:Hp.
    + apply prefix_spec in Hp as [post Hp].
      split; [intros _; exists "", post; exact Hp | reflexivity].
    + rewrite IH. split.
      * intros (pre & post & ->). exists (String ch pre), post. reflexivity.
      * intros (pre & post & H). destruct pre as [|ch' pre].
        -- assert (String.prefix sub (String ch s) = true)
             by (apply prefix_spec; eauto).
           congruence.
        -- injection H as _ H. eauto.
Qed.

Lemma chineseVoices_spec (vs : list SpeechSynthesisVoice) (name : string) :
  In name (chineseVoices vs)
  <-> exists v, In v vs /\ voice_name v = name
                /\ JS.includes (voice_lang v) "zh" = true.
Proof.
  unfold chineseVoices. rewrite List.in_map_iff. split.
  - intros (v & Hn & Hin).
    destruct (proj1 (List.filter_In _ _ _) Hin) as [Hv Hl]. eauto.
  - intros (v & Hin & Hn & Hl). exists v. split; [exact Hn|].
    apply List.filter_In. auto.
Qed.

(** C10.  [getAvailableVoices] resolves with the names of the installed
    voices whose language tag contains "zh" and of no other voice: at once
    when voices are installed, with the empty list when the browser has no
    [speechSynthesis], and on the [voiceschanged] event when the list of
    voices is still empty at the call.  A voice left out of the list can
    still be the one [speak] selects: the selection of lines 131-134 tests
    the tag against the configured language, not against "zh". *)
Theorem getAvailableVoices_lists_the_zh_voices :
  (forall s sy,
     speechSynthesis s = Some sy -> voices sy <> [] ->
     result_of (fst (getAvailableVoices s)) (snd (getAvailableVoices s))
     = Some (Resolved (Names (chineseVoices (voices sy)))))
  /\ (forall s,
        speechSynthesis s = None ->
        result_of (fst (getAvailableVoices s)) (snd (getAvailableVoices s))
        = Some (Resolved (Names [])))
  /\ (forall s sy vs,
        speechSynthesis s = Some sy -> voices sy = [] ->
        let p := fst (getAvailableVoices s) in
        let s1 := snd (getAvailableVoices s) in
        result_of p s1 = None
        /\ result_of p (handle (VoicesChanged vs) s1)
           = Some (Resolved (Names (chineseVoices vs))))
  /\ (forall vs name,
        In name (chineseVoices vs)
        <-> exists v, In v vs /\ voice_name v = name
                      /\ exists pre post, voice_lang v = (pre ++ "zh" ++ post)%string)
  /\ (exists c o vs v,
        select_voice c o vs = Some v /\ ~ In (voice_name v) (chineseVoices vs)).
Proof.
  split; [|split; [|split; [|split]]].
  - intros s sy Hsy Hne.
    destruct s as [c a sp y f ps urls nu tr]; cbn in *; subst.
    destruct sy as [[|v vs] q ovc]; [now contradict Hne|].
    run_service. reflexivity.
  - intros s Hsy.
    destruct s as [c a sp y f ps urls nu tr]; cbn in *; subst.
    run_service. reflexivity.
  - intros s sy vs Hsy Hvs p s1; subst p s1.
    destruct s as [c a sp y f ps urls nu tr]; cbn in *; subst.
    destruct sy as [vs0 q ovc]; cbn in *; subst.
    run_service. split; reflexivity.
  - intros vs name. rewrite chineseVoices_spec.
    split; intros (v & Hin & Hn & Hl); exists v; repeat split; auto;
      apply includes_spec; exact Hl.
  - exists {| subscriptionKey := "your-azure-key"; region := "westus";
              language := "en-US"; voice := "en-US-JennyNeural" |},
           (set_voice (Some "Samantha") no_options),
           (voices sample_synthesizer),
           {| voice_name := "Samantha"; voice_lang := "en-US" |}.
    split; [reflexivity|]. vm_compute. intros [H|[]]. discriminate H.
Qed.

Lemma getAvailableVoices_lists_the_zh_voices_witness :
  result_of (fst (getAvailableVoices speechService)) (snd (getAvailableVoices speechService))
  = Some (Resolved (Names ["Ting-Ting"])).
Proof.
  destruct getAvailableVoices_lists_the_zh_voices as (H & _).
  specialize (H speechService sample_synthesizer eq_refl).
  apply H. discriminate.
Defined.

(** With a configured language that itself contains "zh", as in the default
    configuration, every voice [speak] can select is in the list. *)
Lemma selected_voice_is_listed (c : AzureTTSConfig) (o : SpeechOptions)
    (vs : list SpeechSynthesisVoice) (v : SpeechSynthesisVoice) :
  JS.includes (language c) "zh" = true ->
  select_voice c o vs = Some v ->
  In (voice_name v) (chineseVoices vs).
Proof.
  intros Hzh Hsel. unfold select_voice in Hsel.
  apply List.find_some in Hsel as [Hin Hv].
  apply andb_prop in Hv as [_ Hl].
  apply chineseVoices_spec. exists v. repeat split; auto.
  apply includes_spec in Hzh as (a & b & Hc).
  apply includes_spec in Hl as (pre & post & Hl).
  apply includes_spec. exists (pre ++ a)%string, (b ++ post)%string.
  rewrite Hl, Hc, !append_assoc. reflexivity.
Qed.

(** ** The request, written out *)

(** The template of lines 68-76, written out. *)
Lemma ssmlText_written_out (c : AzureTTSConfig) (text : string) (o : SpeechOptions) :
  ssmlText c text o
  = (String "010" "" ++ "          <speak version=" ++ String "034" "" ++ "1.0"
     ++ String "034" "" ++ " xmlns=" ++ String "034" ""
     ++ "http://www.w3.org/2001/10/synthesis" ++ String "034" ""
     ++ " xml:lang=" ++ String "034" "" ++ language c ++ String "034" "" ++ ">"
     ++ String "010" "" ++ "            <voice name=" ++ String "034" ""
     ++ JS.or_string (opt_voice o) (voice c) ++ String "034" "" ++ ">"
     ++ String "010" "" ++ "              <prosody rate=" ++ String "034" ""
     ++ JS.to_string (JS.or_default (opt_rate o) JS.one) ++ String "034" ""
     ++ " pitch=" ++ String "034" ""
     ++ JS.to_string (JS.or_default (opt_pitch o) JS.zero) ++ "%" ++ String "034" ""
     ++ " volume=" ++ String "034" ""
     ++ JS.to_string (JS.or_default (opt_volume o) JS.one) ++ String "034" "" ++ ">"
     ++ String "010" "" ++ "                " ++ text
     ++ String "010" "" ++ "              </prosody>"
     ++ String "010" "" ++ "            </voice>"
     ++ String "010" "" ++ "          </speak>"
     ++ String "010" "" ++ "        ")%string.
Proof.
  unfold ssmlText, ssml_document, speak_tag, voice_tag, prosody_tag, attr, dq, nl.
  repeat (progress (cbn; rewrite ?append_assoc)). reflexivity.
Qed.

Lemma speak_sends (s : State) (text : string) (o : SpeechOptions) :
  cloud_configured (config s) = true ->
  sdk_fault s = None ->
  trace (snd (speak text o s))
  = SpeakSsmlAsync
      {| req_subscriptionKey := subscriptionKey (config s);
         req_region := region (config s);
         req_voiceName := JS.or_string (opt_voice o) (voice (config s));
         req_outputFormat := "Audio16Khz32KBitRateMonoMp3";
         req_ssml := ssmlText (config s) text o |}
    :: trace s.
Proof. intros Hc Hf. apply (speak_sends_the_request s text o Hc Hf). Qed.

(** C8, as amended.  With a configured credential and the default voice
    in the configuration, a call of [speak] without options sends one
    request whose speech configuration names the voice
    "zh-CN-XiaoxiaoNeural" and whose document, written out below, has that
    voice in the voice element and rate 1, pitch 0% and volume 1 in the
    prosody element.  A non-empty [options.voice] takes the place of the
    default voice in the speech configuration and in the voice element,
    whatever the other options are.  An empty [options.voice] is ignored:
    the request is the one sent without options. *)
Theorem cloud_request_defaults_and_voice_override (s : State) (text : string) :
  cloud_configured (config s) = true ->
  sdk_fault s = None ->
  voice (config s) = "zh-CN-XiaoxiaoNeural" ->
  let q := String "034" "" in
  let lf := String "010" "" in
  let document name rate pitch volume :=
    (lf ++ "          <speak version=" ++ q ++ "1.0" ++ q
        ++ " xmlns=" ++ q ++ "http://www.w3.org/2001/10/synthesis" ++ q
        ++ " xml:lang=" ++ q ++ language (config s) ++ q ++ ">"
     ++ lf ++ "            <voice name=" ++ q ++ name ++ q ++ ">"
     ++ lf ++ "              <prosody rate=" ++ q ++ rate ++ q
        ++ " pitch=" ++ q ++ pitch ++ "%" ++ q
        ++ " volume=" ++ q ++ volume ++ q ++ ">"
     ++ lf ++ "                " ++ text
     ++ lf ++ "              </prosody>"
     ++ lf ++ "            </voice>"
     ++ lf ++ "          </speak>"
     ++ lf ++ "        ")%string in
  let request name rate pitch volume :=
    {| req_subscriptionKey := subscriptionKey (config s);
       req_region := region (config s);
       req_voiceName := name;
       req_outputFormat := "Audio16Khz32KBitRateMonoMp3";
       req_ssml := document name rate pitch volume |} in
  trace (snd (speak text no_options s))
  = SpeakSsmlAsync (request "zh-CN-XiaoxiaoNeural" "1" "0" "1") :: trace s
  /\ (forall v,
        v <> "" ->
        trace (snd (speak text (set_voice (Some v) no_options) s))
        = SpeakSsmlAsync (request v "1" "0" "1") :: trace s)
  /\ (forall o v,
        opt_voice o = Some v -> v <> "" ->
        exists rate pitch volume,
          trace (snd (speak text o s))
          = SpeakSsmlAsync (request v rate pitch volume) :: trace s)
  /\ trace (snd (speak text (set_voice (Some "") no_options) s))
     = SpeakSsmlAsync (request "zh-CN-XiaoxiaoNeural" "1" "0" "1") :: trace s.
Proof.
  intros Hc Hf Hv q lf document request; subst q lf document request.
  pose proof (speak_sends s text) as Hdoc. specialize (fun o => Hdoc o Hc Hf).
  pose proof (ssmlText_written_out (config s) text) as Hssml.
  split; [|split; [|split]].
  - rewrite Hdoc, Hssml. cbn. rewrite Hv. reflexivity.
  - intros v Hne. rewrite Hdoc, Hssml.
    unfold set_voice, no_options; cbn [opt_voice opt_rate opt_pitch opt_volume].
    rewrite (or_string_nonempty _ _ Hne). reflexivity.
  - intros o v Ho Hne. eexists _, _, _. rewrite Hdoc, Hssml, Ho.
    rewrite (or_string_nonempty _ _ Hne). reflexivity.
  - rewrite Hdoc, Hssml. cbn. rewrite Hv. reflexivity.
Qed.

(** A service with a key, the text "你好": without options, and with the
    voice "zh-CN-YunxiNeural". *)
Lemma cloud_request_defaults_and_voice_override_witness :
  let q := String "034" "" in
  (exists req,
     trace (snd (speak "你好" no_options configured_service)) = [SpeakSsmlAsync req]
     /\ req_voiceName req = "zh-CN-XiaoxiaoNeural"
     /\ JS.includes (req_ssml req)
          ("<voice name=" ++ q ++ "zh-CN-XiaoxiaoNeural" ++ q ++ ">") = true
     /\ JS.includes (req_ssml req)
          ("<prosody rate=" ++ q ++ "1" ++ q ++ " pitch=" ++ q ++ "0%" ++ q
           ++ " volume=" ++ q ++ "1" ++ q ++ ">") = true)
  /\ (exists req,
        trace (snd (speak "你好" (set_voice (Some "zh-CN-YunxiNeural") no_options)
                      configured_service))
        = [SpeakSsmlAsync req]
        /\ req_voiceName req = "zh-CN-YunxiNeural"
        /\ JS.includes (req_ssml req)
             ("<voice name=" ++ q ++ "zh-CN-YunxiNeural" ++ q ++ ">") = true
        /\ JS.includes (req_ssml req) "zh-CN-XiaoxiaoNeural" = false).
Proof.
  destruct (cloud_request_defaults_and_voice_override configured_service "你好"
              eq_refl eq_refl eq_refl)
    as (Hd & Ho & _).
  split.
  - eexists. split; [exact Hd|]. vm_compute. repeat split.
  - eexists. split.
    + refine (Ho "zh-CN-YunxiNeural" _). discriminate.
    + vm_compute. repeat split.
Defined.

(** C8 as stated fails for the empty string: it is a value of
    [options.voice], and the request then names the default voice, in the
    speech configuration and in the voice element. *)
Lemma empty_voice_override_is_ignored :
  let o := set_voice (Some "") no_options in
  opt_voice o = Some ""
  /\ exists req,
       trace (snd (speak "你好" o configured_service)) = [SpeakSsmlAsync req]
       /\ req_voiceName req <> ""
       /\ req_voiceName req = "zh-CN-XiaoxiaoNeural"
       /\ JS.includes (req_ssml req)
            ("<voice name=" ++ String "034" "" ++ "zh-CN-XiaoxiaoNeural"
             ++ String "034" "" ++ ">") = true
       /\ JS.includes (req_ssml req)
            ("<voice name=" ++ String "034" "" ++ String "034" "" ++ ">") = false.
Proof.
  split; [reflexivity|]. eexists. split; [vm_compute; reflexivity|].
  split; [discriminate|]. vm_compute. repeat split.
Qed.

(** ** No validation *)







(** ** The text inside the request *)

Lemma ssmlText_split (c : AzureTTSConfig) (text : string) (o : SpeechOptions) :
  ssmlText c text o = (ssml_before c o ++ text ++ ssml_after)%string.
Proof.
  unfold ssmlText, ssml_document, ssml_before, ssml_after.
  rewrite !append_assoc. reflexivity.
Qed.

(** X1.  The text reaches the cloud as it was passed: the SSML document of
    the request is a prefix and a suffix that do not depend on the text,
    with the text between them, character for character.  No character of
    the text is escaped, so markup in the text is markup in the document. *)
Theorem text_reaches_the_cloud_unescaped (s : State) (text : string)
    (o : SpeechOptions) :
  cloud_configured (config s) = true ->
  sdk_fault s = None ->
  exists req,
    head (trace (snd (speak text o s))) = Some (SpeakSsmlAsync req)
    /\ req_ssml req = (ssml_before (config s) o ++ text ++ ssml_after)%string
    /\ JS.includes (req_ssml req) text = true.
Proof.
  intros Hc Hf. exists (synthesis_request (config s) text o).
  split; [|split].
  - destruct s as [c a sp sy f ps urls nu tr]; cbn in *; subst.
    run_service. reflexivity.
  - apply ssmlText_split.
  - apply includes_spec. exists (ssml_before (config s) o), ssml_after.
    apply ssmlText_split.
Qed.

(** A text that closes the [prosody] element and opens a [break]. *)
Lemma text_reaches_the_cloud_unescaped_witness :
  exists req,
    head (trace (snd (speak "</prosody><break time='9s'/>" no_options configured_service)))
    = Some (SpeakSsmlAsync req)
    /\ JS.includes (req_ssml req) "</prosody><break time='9s'/>" = true.
Proof.
  destruct (text_reaches_the_cloud_unescaped configured_service
              "</prosody><break time='9s'/>" no_options eq_refl eq_refl)
    as (req & H1 & _ & H3).
  exists req. split; [exact H1 | exact H3].
Defined.

(** ** Runs of calls and events *)

Arguments setup : simpl never.

Lemma setup_fulfil (p : nat) (o : outcome) (s : State) :
  setup (fulfil p o s) = setup s.
Proof. unfold fulfil. destruct (status_of p s) as [[w|o']|]; reflexivity. Qed.

Lemma setup_await (p : nat) (fr : frame) (k : outcome -> State -> State) (s : State) :
  (forall o t, setup (k o t) = setup t) -> setup (await p fr k s) = setup s.
Proof. intros Hk. unfold await. destruct (status_of p s) as [[w|o']|]; auto. Qed.

Lemma setup_speakWithWebSpeech (text : string) (o : SpeechOptions) (s : State) :
  setup (snd (speakWithWebSpeech text o s)) = setup s.
Proof.
  destruct (speechSynthesis s) as [sy|] eqn:Hsy.
  - rewrite (speakWithWebSpeech_started _ _ _ _ Hsy). reflexivity.
  - rewrite (speakWithWebSpeech_unsupported _ _ _ Hsy). reflexivity.
Qed.

Lemma setup_playAudioBuffer (d : list Byte.byte) (s : State) :
  setup (snd (playAudioBuffer d s)) = setup s.
Proof. rewrite playAudioBuffer_normal. reflexivity. Qed.

Lemma setup_fallback_k (call : nat) (e : error) (o : outcome) (s : State) :
  setup (fallback_k call e o s) = setup s.
Proof. unfold fallback_k. destruct o; rewrite setup_fulfil; reflexivity. Qed.

Lemma setup_catch_block (call : nat) (text : string) (o : SpeechOptions)
    (e : error) (s : State) :
  setup (catch_block call text o e s) = setup s.
Proof.
  unfold catch_block.
  destruct (speakWithWebSpeech text o (emit (ConsoleError "语音合成失败:" e) s))
    as [p t] eqn:Hw.
  rewrite setup_await by (intros; apply setup_fallback_k).
  change t with (snd (p, t)). rewrite <- Hw, setup_speakWithWebSpeech. reflexivity.
Qed.

Lemma setup_webspeech_k (call : nat) (text : string) (o : SpeechOptions)
    (r : outcome) (s : State) :
  setup (webspeech_k call text o r s) = setup s.
Proof.
  unfold webspeech_k. destruct r; [apply setup_fulfil | apply setup_catch_block].
Qed.

Lemma setup_local_then (call : nat) (text : string) (o : SpeechOptions) (s : State) :
  setup
    (let '(p, t) := speakWithWebSpeech text o s in
     await p {| fr_call := call; fr_cont := AwaitWebSpeech text o |}
       (webspeech_k call text o) t)
  = setup s.
Proof.
  destruct (speakWithWebSpeech text o s) as [p t] eqn:Hw.
  rewrite setup_await by (intros; apply setup_webspeech_k).
  change t with (snd (p, t)). rewrite <- Hw. apply setup_speakWithWebSpeech.
Qed.

Lemma setup_synthesize_k (call : nat) (text : string) (o : SpeechOptions)
    (r : outcome) (s : State) :
  setup (synthesize_k call text o r s) = setup s.
Proof.
  unfold synthesize_k. destruct r as [v|e]; [|apply setup_catch_block].
  destruct v as [| |d|ns].
  - apply setup_local_then.
  - apply setup_local_then.
  - destruct (playAudioBuffer d s) as [p t] eqn:Hp. rewrite setup_fulfil.
    change t with (snd (p, t)). rewrite <- Hp. apply setup_playAudioBuffer.
  - apply setup_local_then.
Qed.

Lemma setup_settle (p : nat) (o : outcome) (s : State) :
  setup (settle p o s) = setup s.
Proof.
  unfold settle. destruct (status_of p s) as [[[fr|]|o']|]; try reflexivity.
  unfold resume. destruct (fr_cont fr).
  - rewrite setup_synthesize_k. reflexivity.
  - rewrite setup_webspeech_k. reflexivity.
  - rewrite setup_fallback_k. reflexivity.
Qed.

Lemma setup_handle (ev : event) (s : State) : setup (handle ev s) = setup s.
Proof.
  destruct ev; unfold handle.
  - destruct (origin_of p s) as [[]|]; try reflexivity.
    rewrite setup_settle. reflexivity.
  - destruct (origin_of p s) as [[]|]; try reflexivity. rewrite setup_settle.
    unfold dequeue. destruct (speechSynthesis s); reflexivity.
  - destruct (origin_of p s) as [[]|]; try reflexivity. rewrite setup_settle.
    unfold dequeue. destruct (speechSynthesis s); reflexivity.
  - destruct (audio s ≫= onended) as [h|]; try reflexivity. rewrite setup_settle.
    unfold set_paused, update_audio. destruct (audio s); reflexivity.
  - destruct (audio s ≫= onerror) as [h|]; try reflexivity. rewrite setup_settle.
    unfold set_paused, update_audio. destruct (audio s); reflexivity.
  - destruct (origin_of p s) as [[]|]; try reflexivity. rewrite setup_settle.
    unfold set_paused, update_audio. destruct (audio s); reflexivity.
  - destruct (speechSynthesis s) as [sy|]; try reflexivity.
    destruct (onvoiceschanged sy); try reflexivity.
    rewrite setup_settle. reflexivity.
Qed.

Lemma setup_speak (text : string) (o : SpeechOptions) (s : State) :
  setup (snd (speak text o s)) = setup s.
Proof.
  unfold speak.
  destruct (new_promise OfSpeak s) as [call s0] eqn:Hn.
  assert (H0 : setup s0 = setup s).
  { unfold new_promise in Hn. injection Hn as _ <-. reflexivity. }
  destruct (synthesizeSpeech text o s0) as [p t] eqn:Hs.
  assert (Ht : setup t = setup s0).
  { unfold synthesizeSpeech in Hs.
    destruct (new_promise OfSynthesize s0) as [q s1] eqn:Hq.
    unfold new_promise in Hq. injection Hq as _ <-.
    match type of Hs with context [cloud_configured ?c] =>
      destruct (cloud_configured c) end;
      [match type of Hs with context [sdk_fault ?x] => destruct (sdk_fault x) end|];
      injection Hs as _ <-; rewrite ?setup_fulfil; reflexivity. }
  cbn. rewrite setup_await by (intros; apply setup_synthesize_k). congruence.
Qed.

Lemma setup_perform (op : operation) (s : State) : setup (perform op s) = setup s.
Proof.
  destruct op; cbn.
  - apply setup_speak.
  - rewrite stop_normal. reflexivity.
  - destruct s as [c a sp [[[|v vs] q ovc]|] f ps urls nu tr]; run_service; reflexivity.
  - apply setup_handle.
Qed.

Lemma speak_network_calls (text : string) (o : SpeechOptions) (s : State) :
  network_calls (snd (speak text o s)) = cloud_requests s text o ++ network_calls s.
Proof.
  unfold cloud_requests.
  destruct (cloud_configured (config s)) eqn:Hc;
    destruct s as [c a sp [y|] [name|] ps urls nu tr]; cbn in *; run_service;
    rewrite ?List.filter_app, ?quiet_voice_calls, ?quiet_stop_calls; reflexivity.
Qed.

Lemma cloud_requests_setup (s t : State) (text : string) (o : SpeechOptions) :
  setup t = setup s -> cloud_requests t text o = cloud_requests s text o.
Proof. unfold setup, cloud_requests. intros [= -> ->]. reflexivity. Qed.

Lemma requests_setup (s t : State) (ops : list operation) :
  setup t = setup s -> requests t ops = requests s ops.
Proof.
  intros H. unfold requests. induction ops as [|op ops IH]; [reflexivity|].
  cbn. rewrite IH. destruct op; try reflexivity.
  rewrite (cloud_requests_setup s t) by exact H. reflexivity.
Qed.

Lemma requests_cons (s : State) (op : operation) (ops : list operation) :
  requests s (op :: ops) = requests s [op] ++ requests s ops.
Proof. unfold requests; cbn. rewrite app_nil_r. reflexivity. Qed.

Lemma requests_unconfigured (s : State) (ops : list operation) :
  cloud_configured (config s) = false -> requests s ops = [].
Proof.
  intros Hc. unfold requests. induction ops as [|op ops IH]; [reflexivity|].
  cbn. rewrite IH. destruct op; try reflexivity.
  unfold cloud_requests. rewrite Hc. reflexivity.
Qed.

Lemma perform_network_calls (op : operation) (s : State) :
  network_calls (perform op s) = rev (requests s [op]) ++ network_calls s.
Proof.
  destruct op; cbn.
  - rewrite speak_network_calls, app_nil_r.
    unfold cloud_requests. destruct (cloud_configured (config s)); [|reflexivity].
    destruct (sdk_fault s); reflexivity.
  - rewrite stop_normal. unfold network_calls, stopped; cbn.
    rewrite List.filter_app, quiet_stop_calls. reflexivity.
  - destruct s as [c a sp [[[|v vs] q ovc]|] f ps urls nu tr]; run_service; reflexivity.
  - apply handle_makes_no_network_call.
Qed.

(** X2.  In every run of calls of [speak], [stop] and [getAvailableVoices]
    and of events of the SDK and the browser, the configuration and the SDK
    stay as the constructor left them, and the requests sent to the cloud are
    exactly one per call of [speak] made while the key is not the placeholder
    and the SDK sets the request up, in the order of the calls: no request
    is repeated, and no other method and no event sends one.  With the
    placeholder key, as on the exported singleton, no run sends any. *)
Theorem cloud_is_called_once_per_speak (ops : list operation) (s : State) :
  setup (run ops s) = setup s
  /\ network_calls (run ops s) = rev (requests s ops) ++ network_calls s
  /\ (cloud_configured (config s) = false ->
      network_calls (run ops s) = network_calls s).
Proof.
  assert (H : setup (run ops s) = setup s
              /\ network_calls (run ops s) = rev (requests s ops) ++ network_calls s).
  { revert s. induction ops as [|op ops IH]; intros s; [split; reflexivity|].
    change (run (op :: ops) s) with (run ops (perform op s)).
    destruct (IH (perform op s)) as [H1 H2]. split.
    - rewrite H1. apply setup_perform.
    - rewrite H2, perform_network_calls, (requests_setup s) by apply setup_perform.
      rewrite (requests_cons s op ops), rev_app_distr, app_assoc. reflexivity. }
  destruct H as [H1 H2]. split; [exact H1|]. split; [exact H2|].
  intros Hc. rewrite H2, requests_unconfigured by exact Hc. reflexivity.
Qed.

(** The exported singleton: two calls of [speak], a failed utterance, a
    [stop] and a listing of the voices. *)
Lemma cloud_is_called_once_per_speak_witness :
  network_calls
    (run [CallSpeak "你好" no_options; Deliver (UtteranceError 2 "network");
          CallStop; CallGetAvailableVoices; CallSpeak "再见" triple_rate]
       speechService)
  = [].
Proof.
  destruct (cloud_is_called_once_per_speak
              [CallSpeak "你好" no_options; Deliver (UtteranceError 2 "network");
               CallStop; CallGetAvailableVoices; CallSpeak "再见" triple_rate]
              speechService)
    as (_ & _ & H).
  exact (H eq_refl).
Defined.

(** ** Closing the synthesizer *)

Lemma closes_stop_calls a y sp : List.filter is_close (stop_calls a y sp) = [].
Proof. destruct a, y, sp; reflexivity. Qed.

Lemma closes_voice_calls o : List.filter is_close (voice_calls o) = [].
Proof. unfold voice_calls. destruct (JS.truthy_string (opt_voice o)); reflexivity. Qed.

Lemma closes_new_audio_calls a : List.filter is_close (new_audio_calls a) = [].
Proof. destruct a; reflexivity. Qed.

(** X3.  The SDK synthesizer made for a request is closed on every way
    [speakSsmlAsync] calls back (audio, another result reason, the error
    callback): [close] has not been called while the request is in flight,
    and is called once by the callback, whatever [speak] goes on to do
    with the outcome; the promise of [synthesizeSpeech] is settled with that
    outcome. *)
Theorem synthesizer_closed_on_every_callback (s : State) (text : string)
    (o : SpeechOptions) (r : synthesis_result) :
  cloud_configured (config s) = true ->
  sdk_fault s = None ->
  let p := length (promises s) + 1 in
  let s1 := snd (speak text o s) in
  let s2 := handle (SynthesisDone p r) s1 in
  closes s1 = closes s
  /\ result_of p s1 = None
  /\ closes s2 = S (closes s)
  /\ result_of p s2 = Some (synthesis_outcome r).
Proof.
  intros Hc Hf p s1 s2; subst p s1 s2.
  destruct s as [c a sp [y|] f ps urls nu tr]; cbn in *; subst.
  all: destruct r as [d|details|e]; run_service.
  all: unfold closes; cbn;
    rewrite ?List.filter_app, ?closes_voice_calls, ?closes_stop_calls,
      ?closes_new_audio_calls; cbn.
  all: repeat split; run_service; cbn;
    rewrite ?List.filter_app, ?closes_voice_calls, ?closes_stop_calls,
      ?closes_new_audio_calls; reflexivity.
Qed.

Lemma synthesizer_closed_on_every_callback_witness :
  closes (handle (SynthesisDone 1 (NotCompleted "quota exceeded"))
            (snd (speak "你好" no_options configured_service)))
  = 1.
Proof.
  destruct (synthesizer_closed_on_every_callback configured_service "你好" no_options
              (NotCompleted "quota exceeded") eq_refl eq_refl)
    as (_ & _ & H & _).
  vm_compute in H. vm_compute. exact H.
Defined.

(** ** What the fallback speaks *)



(** ** Two attempts on the local backend *)

Lemma backend_stop_calls a y sp : List.filter is_backend_call (stop_calls a y sp) = [].
Proof. destruct a, y, sp; reflexivity. Qed.

Lemma backend_voice_calls o : List.filter is_backend_call (voice_calls o) = [].
Proof. unfold voice_calls. destruct (JS.truthy_string (opt_voice o)); reflexivity. Qed.

(** X4.  With the placeholder key, an utterance that reports an error is
    followed by one more utterance for the same text and options: the error
    is logged and the [catch] block speaks again.  When the second utterance
    reports an error too, that error is logged, no third utterance is
    started, the promise of [speak] is rejected with the error of the first
    utterance and [isPlaying] is [false]. *)
Theorem local_backend_is_tried_twice (s : State) (text : string)
    (o : SpeechOptions) (sy : SpeechSynthesis) (code code' : string) :
  cloud_configured (config s) = false ->
  speechSynthesis s = Some sy ->
  let call := length (promises s) in
  let u := local_utterance (config s) text o sy in
  let first_error := Error ("语音合成错误: " ++ code) in
  let s2 := handle (UtteranceError (call + 2) code) (snd (speak text o s)) in
  let s3 := handle (UtteranceError (call + 3) code') s2 in
  backend_calls s2 = [SynthSpeak (call + 3) u; SynthSpeak (call + 2) u] ++ backend_calls s
  /\ In (ConsoleError "语音合成失败:" first_error) (trace s2)
  /\ result_of call s2 = None
  /\ isPlaying s2 = true
  /\ backend_calls s3 = backend_calls s2
  /\ head (trace s3)
     = Some (ConsoleError "Web Speech API也失败:" (Error ("语音合成错误: " ++ code')))
  /\ result_of call s3 = Some (Rejected first_error)
  /\ isPlaying s3 = false.
Proof.
  intros Hc Hsy call u first_error s2 s3; subst call u first_error s2 s3.
  destruct s as [c a sp y f ps urls nu tr]; cbn in *; subst.
  run_service.
  unfold backend_calls, local_utterance; cbn.
  repeat split; try in_trace.
  all: repeat (rewrite List.filter_app; cbn).
  all: rewrite ?backend_voice_calls, ?backend_stop_calls; reflexivity.
Qed.

Lemma local_backend_is_tried_twice_witness :
  let s3 := handle (UtteranceError 3 "network")
              (handle (UtteranceError 2 "synthesis-failed")
                 (snd (speak "你好" no_options speechService))) in
  length (backend_calls s3) = 2
  /\ result_of 0 s3 = Some (Rejected (Error "语音合成错误: synthesis-failed")).
Proof.
  destruct (local_backend_is_tried_twice speechService "你好" no_options
              sample_synthesizer "synthesis-failed" "network" eq_refl eq_refl)
    as (H1 & _ & _ & _ & H2 & _ & H3 & _).
  rewrite H1 in H2. apply (f_equal (@length effect)) in H2.
  vm_compute in H2, H3. vm_compute. split; assumption.
Defined.

(** ** A local utterance from start to end *)

Lemma eqb_succ_self (n : nat) : Nat.eqb n (S n) = false.
Proof. apply Nat.eqb_neq. lia. Qed.

Lemma succ_eqb_self (n : nat) : Nat.eqb (S n) n = false.
Proof. apply Nat.eqb_neq. lia. Qed.

(** X5.  [speakWithWebSpeech] in a browser with a synthesizer: the audio
    element is paused, the utterances the synthesizer holds are cancelled
    when [isSpeaking] was set and kept when it was not, the new utterance is
    queued and [isPlaying] is [true].  The promise is pending until the
    utterance ends or fails; it is then resolved, or rejected with the error
    code of the event in its message, the utterance has left the queue and
    [isPlaying] is [false]. *)
Theorem local_utterance_lifecycle (s : State) (text : string) (o : SpeechOptions)
    (sy : SpeechSynthesis) (code : string) :
  speechSynthesis s = Some sy ->
  let p := length (promises s) in
  let others := if isSpeaking s then [] else queue sy in
  let s1 := snd (speakWithWebSpeech text o s) in
  fst (speakWithWebSpeech text o s) = p
  /\ utterances_speaking s1 = p :: others
  /\ audio_playing s1 = false
  /\ isPlaying s1 = true
  /\ result_of p s1 = None
  /\ result_of p (handle (UtteranceEnd p) s1) = Some (Resolved Undefined)
  /\ result_of p (handle (UtteranceError p code) s1)
     = Some (Rejected (Error ("语音合成错误: " ++ code)))
  /\ isPlaying (handle (UtteranceEnd p) s1) = false
  /\ isPlaying (handle (UtteranceError p code) s1) = false
  /\ ~ In p (utterances_speaking (handle (UtteranceEnd p) s1))
  /\ ~ In p (utterances_speaking (handle (UtteranceError p code) s1)).
Proof.
  intros Hsy p others s1; subst p others s1.
  destruct s as [c a sp y f ps urls nu tr]; cbn in *; subst.
  run_service. unfold audio_playing; cbn.
  rewrite ?Nat.eqb_refl; cbn.
  repeat split; try (destruct a; reflexivity); apply not_in_filter_out.
Qed.

Lemma local_utterance_lifecycle_witness :
  let s1 := snd (speakWithWebSpeech "你好" no_options speechService) in
  utterances_speaking s1 = [0]
  /\ result_of 0 (handle (UtteranceEnd 0) s1) = Some (Resolved Undefined)
  /\ isPlaying (handle (UtteranceEnd 0) s1) = false.
Proof.
  destruct (local_utterance_lifecycle speechService "你好" no_options
              sample_synthesizer "" eq_refl)
    as (_ & H1 & _ & _ & _ & H2 & _ & H3 & _).
  vm_compute in H1, H2, H3. vm_compute. repeat split; assumption.
Defined.

(** ** Promise jobs and the end of a turn *)

Arguments Microtask.await : simpl never.
Arguments Microtask.settle : simpl never.
Arguments Microtask.catch_block : simpl never.
Arguments Microtask.webspeech_k : simpl never.
Arguments Microtask.synthesize_k : simpl never.
Arguments Microtask.resume : simpl never.
Arguments Microtask.speak : simpl never.
Arguments Microtask.handle : simpl never.
Arguments Microtask.quiesce : simpl never.
Arguments Microtask.budget : simpl never.

Lemma budget_app (js js' : list Microtask.job) :
  Microtask.budget (js ++ js') = Microtask.budget js + Microtask.budget js'.
Proof.
  unfold Microtask.budget. rewrite List.map_app, list_sum_app. reflexivity.
Qed.

Lemma rank_positive (k : cont) : 0 < Microtask.rank k.
Proof. destruct k; cbn; lia. Qed.

Lemma budget_zero (js : list Microtask.job) : Microtask.budget js = 0 -> js = [].
Proof.
  destruct js as [|j js]; [reflexivity|]. unfold Microtask.budget. cbn.
  pose proof (rank_positive (fr_cont (Microtask.job_frame j))). lia.
Qed.

(** What a continuation adds to the queue has a smaller rank than the
    continuation. *)
Definition adds_below (bound : nat) (t t' : Microtask.turn) : Prop :=
  exists new, Microtask.jobs t' = Microtask.jobs t ++ new /\ Microtask.budget new < bound.

Lemma await_adds (p : nat) (fr : frame) (t : Microtask.turn) :
  adds_below (S (Microtask.rank (fr_cont fr))) t (Microtask.await p fr t).
Proof.
  unfold Microtask.await, adds_below.
  destruct (status_of p (Microtask.now t)) as [[w|o]|]; cbn.
  - exists []. rewrite app_nil_r. split; [reflexivity | unfold Microtask.budget; cbn; lia].
  - eexists. split; [reflexivity|]. unfold Microtask.budget; cbn. lia.
  - exists []. rewrite app_nil_r. split; [reflexivity | unfold Microtask.budget; cbn; lia].
Qed.

Lemma catch_block_adds call text o e t :
  adds_below 2 t (Microtask.catch_block call text o e t).
Proof.
  unfold Microtask.catch_block.
  destruct (speakWithWebSpeech text o _) as [p s].
  exact (await_adds p {| fr_call := call; fr_cont := AwaitFallback e |}
           {| Microtask.now := s; Microtask.jobs := Microtask.jobs t |}).
Qed.

Lemma adds_below_le (a b : nat) t t' : a <= b -> adds_below a t t' -> adds_below b t t'.
Proof. intros Hle (new & H1 & H2). exists new. split; [exact H1 | lia]. Qed.

Lemma adds_nothing (b : nat) t t' :
  0 < b -> Microtask.jobs t' = Microtask.jobs t -> adds_below b t t'.
Proof. intros Hb H. exists []. rewrite app_nil_r. split; [exact H | exact Hb]. Qed.

Lemma resume_adds (j : Microtask.job) (t : Microtask.turn) :
  adds_below (Microtask.rank (fr_cont (Microtask.job_frame j))) t (Microtask.resume j t).
Proof.
  unfold Microtask.resume.
  destruct (fr_cont (Microtask.job_frame j)) as [text o|text o|e]; cbn.
  - unfold Microtask.synthesize_k.
    destruct (Microtask.job_outcome j) as [v|e].
    + destruct v as [| |d|ns].
      all: try (destruct (speakWithWebSpeech text o _) as [p s];
                exact (await_adds p _ {| Microtask.now := s;
                                         Microtask.jobs := Microtask.jobs t |})).
      destruct (playAudioBuffer d _) as [p s]. apply adds_nothing; [lia | reflexivity].
    + apply (adds_below_le 2); [lia | apply catch_block_adds].
  - unfold Microtask.webspeech_k.
    destruct (Microtask.job_outcome j) as [v|e].
    + apply adds_nothing; [lia | reflexivity].
    + apply catch_block_adds.
  - apply adds_nothing; [lia | reflexivity].
Qed.

Lemma step_budget (t : Microtask.turn) :
  Microtask.jobs t <> [] ->
  Microtask.budget (Microtask.jobs (Microtask.step t)) < Microtask.budget (Microtask.jobs t).
Proof.
  unfold Microtask.step. destruct (Microtask.jobs t) as [|j js] eqn:Hj; [congruence|].
  intros _.
  destruct (resume_adds j {| Microtask.now := Microtask.now t; Microtask.jobs := js |})
    as (new & H1 & H2).
  rewrite H1. cbn [Microtask.jobs]. rewrite budget_app.
  change (j :: js) with ([j] ++ js). rewrite budget_app.
  unfold Microtask.budget at 3. cbn. lia.
Qed.

Lemma steps_idle (n : nat) (t : Microtask.turn) :
  Microtask.jobs t = [] -> Microtask.steps n t = t.
Proof.
  intros H. induction n as [|n IH]; [reflexivity|].
  cbn. unfold Microtask.step. rewrite H. exact IH.
Qed.

Lemma steps_enough (n : nat) :
  forall t m, Microtask.budget (Microtask.jobs t) <= n -> n <= m ->
    Microtask.steps m t = Microtask.steps n t
    /\ Microtask.jobs (Microtask.steps n t) = [].
Proof.
  induction n as [|n IH]; intros t m Hb Hm.
  - assert (H : Microtask.jobs t = []) by (apply budget_zero; lia).
    rewrite (steps_idle m t H). split; [reflexivity | exact H].
  - destruct m as [|m]; [lia|]. cbn.
    destruct (Microtask.jobs t) as [|j js] eqn:Hj.
    + unfold Microtask.step. rewrite Hj.
      rewrite (steps_idle m t Hj), (steps_idle n t Hj). split; [reflexivity | exact Hj].
    + apply IH; [|lia].
      pose proof (step_budget t) as Hs. rewrite Hj in Hs.
      specialize (Hs ltac:(discriminate)). lia.
Qed.

Lemma quiesce_empties (t : Microtask.turn) : Microtask.jobs (Microtask.quiesce t) = [].
Proof. apply (steps_enough _ t _ (le_n _) (le_n _)). Qed.

Lemma quiesce_idle (s : State) :
  Microtask.quiesce (Microtask.start s) = Microtask.start s.
Proof. reflexivity. Qed.

Lemma step_idle (t : Microtask.turn) : Microtask.jobs t = [] -> Microtask.step t = t.
Proof. intros H. unfold Microtask.step. rewrite H. reflexivity. Qed.

Lemma quiesce_step (t : Microtask.turn) :
  Microtask.quiesce t = Microtask.quiesce (Microtask.step t).
Proof.
  destruct (list_eq_nil_dec (Microtask.jobs t)) as [Hj|Hj].
  - rewrite (step_idle t Hj). reflexivity.
  - pose proof (step_budget t Hj) as Hs. unfold Microtask.quiesce.
    destruct (Microtask.budget (Microtask.jobs t)) as [|b] eqn:Hb; [lia|].
    cbn [Microtask.steps].
    apply (steps_enough (Microtask.budget (Microtask.jobs (Microtask.step t)))
             (Microtask.step t) b); lia.
Qed.

Lemma quiesce_job (fr : frame) (o : outcome) (s : State) :
  Microtask.quiesce
    {| Microtask.now := s;
       Microtask.jobs := [{| Microtask.job_frame := fr; Microtask.job_outcome := o |}] |}
  = Microtask.quiesce
      (Microtask.resume {| Microtask.job_frame := fr; Microtask.job_outcome := o |}
         (Microtask.start s)).
Proof. rewrite quiesce_step. reflexivity. Qed.

(** A job that is alone in the queue and the jobs it leads to run as the
    continuation of the direct model does. *)
Definition runs_as (k : outcome -> State -> State) (fr : frame) : Prop :=
  forall o s,
    Microtask.quiesce
      (Microtask.resume {| Microtask.job_frame := fr; Microtask.job_outcome := o |}
         (Microtask.start s))
    = Microtask.start (k o s).

Lemma agree_await (p : nat) (fr : frame) (k : outcome -> State -> State) (s : State) :
  runs_as k fr ->
  Microtask.quiesce (Microtask.await p fr (Microtask.start s))
  = Microtask.start (await p fr k s).
Proof.
  intros Hk. unfold Microtask.await, await, Microtask.start; cbn.
  destruct (status_of p s) as [[w|o]|]; try reflexivity.
  unfold Microtask.enqueue; cbn. rewrite quiesce_job. apply Hk.
Qed.

Lemma agree_fallback_k (call : nat) (e : error) :
  runs_as (fallback_k call e) {| fr_call := call; fr_cont := AwaitFallback e |}.
Proof. intros o s. reflexivity. Qed.

Lemma agree_catch_block (call : nat) (text : string) (o : SpeechOptions)
    (e : error) (s : State) :
  Microtask.quiesce (Microtask.catch_block call text o e (Microtask.start s))
  = Microtask.start (catch_block call text o e s).
Proof.
  unfold Microtask.catch_block, catch_block; cbn.
  destruct (speakWithWebSpeech text o _) as [p t].
  apply (agree_await p _ _ t), agree_fallback_k.
Qed.

Lemma agree_webspeech_k (call : nat) (text : string) (o : SpeechOptions) :
  runs_as (webspeech_k call text o)
    {| fr_call := call; fr_cont := AwaitWebSpeech text o |}.
Proof.
  intros r s. unfold Microtask.resume; cbn.
  unfold Microtask.webspeech_k, webspeech_k.
  destruct r as [v|e]; [reflexivity | apply agree_catch_block].
Qed.

Lemma agree_synthesize_k (call : nat) (text : string) (o : SpeechOptions) :
  runs_as (synthesize_k call text o)
    {| fr_call := call; fr_cont := AwaitSynthesize text o |}.
Proof.
  intros r s. unfold Microtask.resume; cbn.
  unfold Microtask.synthesize_k, synthesize_k.
  destruct r as [v|e]; [|apply agree_catch_block].
  destruct v as [| |d|ns]; cbn.
  all: try (destruct (speakWithWebSpeech text o s) as [p t];
            apply (agree_await p _ _ t), agree_webspeech_k).
  destruct (playAudioBuffer d s) as [p t]. reflexivity.
Qed.

Lemma agree_resume (fr : frame) : runs_as (resume fr) fr.
Proof.
  destruct fr as [call [text o|text o|e]]; intros r s; unfold resume; cbn.
  - apply agree_synthesize_k.
  - apply agree_webspeech_k.
  - apply agree_fallback_k.
Qed.

Lemma agree_settle (p : nat) (o : outcome) (s : State) :
  Microtask.quiesce (Microtask.settle p o (Microtask.start s))
  = Microtask.start (settle p o s).
Proof.
  unfold Microtask.settle, settle, Microtask.start; cbn.
  destruct (status_of p s) as [[[fr|]|o']|]; try reflexivity.
  unfold Microtask.enqueue, Microtask.on_state; cbn.
  rewrite quiesce_job. apply agree_resume.
Qed.

Lemma quiesce_one (fr : frame) (o : outcome) (s : State) :
  Microtask.quiesce
    {| Microtask.now := s;
       Microtask.jobs := [{| Microtask.job_frame := fr; Microtask.job_outcome := o |}] |}
  = Microtask.start (resume fr o s).
Proof. rewrite quiesce_job. apply agree_resume. Qed.

(** X16.  The promise jobs of a turn always run out, and a turn in which
    one call of [speak] is made, or one event is delivered, ends in the
    state the direct model gives: running the continuation at the [await]
    and running it as a promise job differ only in what is seen before the
    turn ends. *)
Theorem turns_end_as_the_direct_model_says (s : State) :
  (forall t, Microtask.jobs (Microtask.quiesce t) = [])
  /\

  (forall text o,
     fst (Microtask.speak text o (Microtask.start s)) = fst (speak text o s)
     /\ Microtask.quiesce (snd (Microtask.speak text o (Microtask.start s)))
        = Microtask.start (snd (speak text o s)))
  /\ (forall ev,
        Microtask.quiesce (Microtask.handle ev (Microtask.start s))
        = Microtask.start (handle ev s)).
Proof.
  split; [exact quiesce_empties|]. split.
  - intros text o. unfold Microtask.speak, speak; cbn.
    destruct (new_promise OfSpeak s) as [call s0].
    destruct (synthesizeSpeech text o s0) as [p t]. cbn.
    split; [reflexivity|]. apply (agree_await p _ _ t), agree_synthesize_k.
  - intros ev. destruct ev; unfold Microtask.handle, handle; cbn.
    + destruct (origin_of p s) as [[]|]; try reflexivity. apply agree_settle.
    + destruct (origin_of p s) as [[]|]; try reflexivity. apply agree_settle.
    + destruct (origin_of p s) as [[]|]; try reflexivity. apply agree_settle.
    + destruct (audio s ≫= onended) as [h|]; try reflexivity. apply agree_settle.
    + destruct (audio s ≫= onerror) as [h|]; try reflexivity. apply agree_settle.
    + destruct (origin_of p s) as [[]|]; try reflexivity. apply agree_settle.
    + destruct (speechSynthesis s) as [sy|]; try reflexivity.
      destruct (onvoiceschanged sy); try reflexivity. apply agree_settle.
Qed.

(** ** What stop leaves undone *)

(** X6.  [stop] settles no promise and releases no object URL.  Audio that
    [stop] interrupts is paused and [isPlaying] is [false], but the promise
    of [playAudioBuffer] stays pending and the object URL stays live and
    unreleased.  With the placeholder key, nothing has been handed to the
    synthesizer when [speak] returns: the rest of the call is a promise job.
    A [stop] in the same turn therefore comes too early for the call: the
    job then speaks the utterance and [isPlaying] is [true].  A [stop] in a
    later turn cancels the utterance, but the promise of [speak] and the
    promise of the utterance stay pending: it takes an event of the browser
    to settle them. *)
Theorem stop_settles_nothing (s : State) :
  promises (after (stop s)) = promises s
  /\ object_urls (after (stop s)) = object_urls s
  /\ (forall u, releases u (after (stop s)) = releases u s)
  /\ (forall audioData,
        let url := next_url s in
        let p := length (promises s) in
        let s2 := after (stop (snd (playAudioBuffer audioData s))) in
        audio_playing s2 = false
        /\ isPlaying s2 = false
        /\ result_of p s2 = None
        /\ In url (object_urls s2)
        /\ releases url s2 = releases url s)
  /\ (forall text o sy,
        cloud_configured (config s) = false ->
        speechSynthesis s = Some sy ->
        let call := length (promises s) in
        let returned := snd (Microtask.speak text o (Microtask.start s)) in
        let same_turn :=
          Microtask.now
            (Microtask.quiesce
               (Microtask.on_state (fun s => after (stop s)) returned)) in
        let later_turn := after (stop (Microtask.now (Microtask.quiesce returned))) in
        length (Microtask.jobs returned) = 1
        /\ backend_calls (Microtask.now returned) = backend_calls s
        /\ utterances_speaking (Microtask.now returned) = utterances_speaking s
        /\ utterances_speaking same_turn
           = (call + 2) :: (if isSpeaking s then [] else queue sy)
        /\ isPlaying same_turn = true
        /\ result_of call same_turn = None
        /\ utterances_speaking later_turn = []
        /\ isPlaying later_turn = false
        /\ result_of call later_turn = None
        /\ result_of (call + 2) later_turn = None).
Proof.
  split; [|split; [|split; [|split]]].
  - rewrite stop_normal. reflexivity.
  - rewrite stop_normal. reflexivity.
  - intros u. rewrite stop_normal. unfold releases, stopped; cbn.
    rewrite List.filter_app. destruct (audio s), (speechSynthesis s), (isSpeaking s);
      reflexivity.
  - intros audioData url p s2; subst url p s2.
    destruct s as [c a sp sy f ps urls nu tr].
    run_service. unfold releases; cbn. rewrite ?List.filter_app.
    repeat split; try (destruct a, sy, sp; reflexivity); try in_trace.
  - intros text o sy Hc Hsy call returned same_turn later_turn.
    subst call returned same_turn later_turn.
    destruct s as [c a sp y f ps urls nu tr]; cbn in *; subst.
    match goal with
    | |- context [Microtask.speak text o ?t] =>
        eassert (Hret : Microtask.speak text o t = _)
    end.
    { unfold Microtask.speak, Microtask.start; cbn [Microtask.now Microtask.jobs].
      run_service. unfold Microtask.await; cbn [Microtask.now Microtask.jobs].
      run_service. reflexivity. }
    rewrite Hret; clear Hret.
    unfold Microtask.enqueue, Microtask.on_state; cbn.
    rewrite !quiesce_one. cbn.
    run_service.
    repeat split. destruct sp; reflexivity.
Qed.

Lemma stop_settles_nothing_witness :
  let returned := snd (Microtask.speak "你好" no_options (Microtask.start speechService)) in
  utterances_speaking (Microtask.now returned) = []
  /\ utterances_speaking
       (Microtask.now
          (Microtask.quiesce (Microtask.on_state (fun s => after (stop s)) returned)))
     = [2]
  /\ utterances_speaking (after (stop (Microtask.now (Microtask.quiesce returned)))) = [].
Proof.
  destruct (stop_settles_nothing speechService) as (_ & _ & _ & _ & H).
  destruct (H "你好" no_options sample_synthesizer eq_refl eq_refl)
    as (_ & _ & H1 & H2 & _ & _ & H3 & _).
  vm_compute in H1, H2, H3. vm_compute. repeat split; assumption.
Defined.

(** X7.  [stop] does not withdraw a request that is in flight.  After
    [speak] on a configured service and [stop], [isPlaying] is [false] and
    the request has been sent; when the cloud then returns the audio, it is
    played all the same: [play] is called, the audio is playing, [isPlaying]
    is [true] and the promise of [speak] is resolved. *)
Theorem stop_does_not_cancel_a_pending_request (s : State) (text : string)
    (o : SpeechOptions) (audioData : list Byte.byte) :
  cloud_configured (config s) = true ->
  sdk_fault s = None ->
  let call := length (promises s) in
  let s1 := after (stop (snd (speak text o s))) in
  let s2 := handle (SynthesisDone (call + 1) (Completed audioData)) s1 in
  isPlaying s1 = false
  /\ result_of call s1 = None
  /\ network_calls s1 = SpeakSsmlAsync (synthesis_request (config s) text o) :: network_calls s
  /\ audio_playing s2 = true
  /\ isPlaying s2 = true
  /\ head (trace s2) = Some AudioPlay
  /\ result_of call s2 = Some (Resolved Undefined).
Proof.
  intros Hc Hf call s1 s2; subst call s1 s2.
  destruct s as [c a sp sy f ps urls nu tr]; cbn in *; subst.
  run_service. unfold network_calls; cbn.
  rewrite List.filter_app, quiet_stop_calls. repeat split.
Qed.

Lemma stop_does_not_cancel_a_pending_request_witness :
  let s1 := after (stop (snd (speak "你好" no_options configured_service))) in
  isPlaying s1 = false
  /\ audio_playing (handle (SynthesisDone 1 (Completed mp3)) s1) = true.
Proof.
  destruct (stop_does_not_cancel_a_pending_request configured_service "你好"
              no_options mp3 eq_refl eq_refl)
    as (H1 & _ & _ & H2 & _).
  vm_compute in H1, H2. vm_compute. split; assumption.
Defined.

(** ** Both error handlers of a playback *)

(** X8.  When a playback fails both ways, the [error] event of the audio
    element and the rejection of [play], in either order, each handler
    releases the object URL: [revokeObjectURL] is called twice for it.  The
    promise of [playAudioBuffer] keeps the error of the handler that ran
    first. *)
Theorem both_error_handlers_release_the_url (s : State) (audioData : list Byte.byte)
    (name : string) :
  let url := next_url s in
  let p := length (promises s) in
  let s1 := snd (playAudioBuffer audioData s) in
  let s2 := handle (PlayRejected p name) (handle AudioError s1) in
  let s2' := handle AudioError (handle (PlayRejected p name) s1) in
  releases url s2 = S (S (releases url s))
  /\ releases url s2' = S (S (releases url s))
  /\ result_of p s2 = Some (Rejected (Error "音频播放错误: [object Event]"))
  /\ result_of p s2' = Some (Rejected (Exception name))
  /\ ~ In url (object_urls s2)
  /\ ~ In url (object_urls s2').
Proof.
  intros url p s1 s2 s2'; subst url p s1 s2 s2'.
  destruct s as [c a sp sy f ps urls nu tr].
  run_service.
  unfold releases, new_audio_calls; cbn; rewrite ?Nat.eqb_refl; cbn.
  rewrite ?List.filter_app.
  repeat split; try (destruct a; reflexivity); auto using not_in_filter_out.
Qed.

(** ** isPlaying when two sessions overlap *)

(** X9.  One flag serves both backends.  When cloud audio started next to
    utterances that were being spoken and the audio ends first, [isPlaying]
    is [false] although the utterances are still in the queue, and a [stop]
    then pauses the audio element only: [cancel] is not called and the
    utterances go on.  When an utterance ends first, [isPlaying] is [false]
    although the audio is still playing. *)
Theorem isPlaying_is_lost_when_sessions_overlap (s : State)
    (audioData : list Byte.byte) :
  (let s2 := handle AudioEnded (snd (playAudioBuffer audioData s)) in
   let s3 := after (stop s2) in
   utterances_speaking s2 = utterances_speaking s
   /\ isPlaying s2 = false
   /\ utterances_speaking s3 = utterances_speaking s
   /\ trace s3 = AudioSeekToStart :: AudioPause :: trace s2)
  /\ (forall text o sy,
        speechSynthesis s = Some sy ->
        let q := length (promises s) in
        let s1 := snd (speakWithWebSpeech text o s) in
        let s2 := handle (UtteranceEnd q) (snd (playAudioBuffer audioData s1)) in
        audio_playing s2 = true
        /\ isPlaying s2 = false
        /\ result_of (q + 1) s2 = None).
Proof.
  split.
  - destruct s as [c a sp sy f ps urls nu tr].
    run_service. repeat split; destruct sy; reflexivity.
  - intros text o sy Hsy q s1 s2; subst q s1 s2.
    destruct s as [c a sp y f ps urls nu tr]; cbn in *; subst.
    run_service. repeat split.
Qed.

Lemma isPlaying_is_lost_when_sessions_overlap_witness :
  let s2 := handle (UtteranceEnd 0)
              (snd (playAudioBuffer mp3
                      (snd (speakWithWebSpeech "你好" no_options speechService)))) in
  audio_playing s2 = true /\ isPlaying s2 = false.
Proof.
  destruct (isPlaying_is_lost_when_sessions_overlap speechService mp3) as [_ H].
  destruct (H "你好" no_options sample_synthesizer eq_refl) as (H1 & H2 & _).
  vm_compute in H1, H2. vm_compute. split; assumption.
Defined.

(** ** A call that a later call has cut short *)

Lemma idle_stop_does_not_cancel a y : List.filter is_cancel (stop_calls a y false) = [].
Proof. destruct a, y; reflexivity. Qed.

Lemma cancel_voice_calls o : List.filter is_cancel (voice_calls o) = [].
Proof. unfold voice_calls. destruct (JS.truthy_string (opt_voice o)); reflexivity. Qed.

(** X10.  With the placeholder key, a second call of [speak] cancels the
    utterance of the first.  When the browser reports that utterance as
    failed, the [catch] block of the first call speaks its text again: the
    handler has cleared [isSpeaking], so the [stop] before the new utterance
    does not call [cancel], and the text of the first call is queued behind
    the utterance of the second.  Both promises are still pending. *)
Theorem superseded_call_speaks_again (s : State) (textA textB : string)
    (oA oB : SpeechOptions) (sy : SpeechSynthesis) (code : string) :
  cloud_configured (config s) = false ->
  speechSynthesis s = Some sy ->
  let callA := length (promises s) in
  let qA := callA + 2 in
  let callB := callA + 3 in
  let qB := callA + 5 in
  let qA' := callA + 6 in
  let s1 := snd (speak textA oA s) in
  let s2 := snd (speak textB oB s1) in
  let s3 := handle (UtteranceError qA code) s2 in
  fst (speak textB oB s1) = callB
  /\ utterances_speaking s1 = qA :: (if isSpeaking s then [] else queue sy)
  /\ utterances_speaking s2 = [qB]
  /\ utterances_speaking s3 = [qA'; qB]
  /\ (exists u, head (trace s3) = Some (SynthSpeak qA' u) /\ utt_text u = textA)
  /\ cancels s3 = cancels s2
  /\ result_of callA s3 = None
  /\ result_of callB s3 = None.
Proof.
  intros Hc Hsy callA qA callB qB qA' s1 s2 s3; subst callA qA callB qB qA' s1 s2 s3.
  destruct s as [c a sp y f ps urls nu tr]; cbn in *; subst.
  run_service.
  replace (length ps + 5 =? length ps + 2)%nat with false
    by (symmetry; apply Nat.eqb_neq; lia).
  cbn. repeat split; try (eexists; split; reflexivity).
  unfold cancels; cbn.
  rewrite List.filter_app, cancel_voice_calls; cbn.
  rewrite List.filter_app, idle_stop_does_not_cancel. reflexivity.
Qed.

Lemma superseded_call_speaks_again_witness :
  let s2 := snd (speak "二" no_options (snd (speak "一" no_options speechService))) in
  utterances_speaking s2 = [5]
  /\ utterances_speaking (handle (UtteranceError 2 "interrupted") s2) = [6; 5].
Proof.
  destruct (superseded_call_speaks_again speechService "一" "二" no_options no_options
              sample_synthesizer "interrupted" eq_refl eq_refl)
    as (_ & _ & H1 & H2 & _).
  vm_compute in H1, H2. vm_compute. split; assumption.
Defined.

(** ** Two listings of the voices *)

Lemma later_voiceschanged_reach_the_last_listing c a sp f ps urls nu
    (vss : list (list SpeechSynthesisVoice)) vs0 q tr o :
  let s := deliver (List.map VoicesChanged vss)
             (Build_State c a sp
                (Some {| voices := vs0; queue := q;
                         onvoiceschanged := Some (length ps + 1) |})
                f
                (ps ++ [ {| pr_origin := OfVoices; pr_status := Pending None |};
                         {| pr_origin := OfVoices; pr_status := Settled o |} ])
                urls nu tr) in
  result_of (length ps) s = None /\ result_of (length ps + 1) s = Some o.
Proof.
  revert vs0 tr. induction vss as [|vs vss IH]; intros vs0 tr; cbn.
  - run_service. split; reflexivity.
  - run_service. apply IH.
Qed.

(** X11.  [getAvailableVoices] called twice while the browser has not
    loaded its voices: the second call replaces the [onvoiceschanged]
    handler of the first.  Whatever [voiceschanged] events follow, the
    promise of the first call is never settled; the promise of the second
    is resolved by the first event, with the Chinese voices of that event. *)
Theorem second_listing_starves_the_first (s : State) (sy : SpeechSynthesis)
    (vss : list (list SpeechSynthesisVoice)) :
  speechSynthesis s = Some sy ->
  voices sy = [] ->
  let p1 := length (promises s) in
  let p2 := length (promises s) + 1 in
  let s1 := snd (getAvailableVoices s) in
  let s2 := snd (getAvailableVoices s1) in
  let s3 := deliver (List.map VoicesChanged vss) s2 in
  fst (getAvailableVoices s) = p1
  /\ fst (getAvailableVoices s1) = p2
  /\ result_of p1 s3 = None
  /\ result_of p2 s3
     = match vss with
       | [] => None
       | vs :: _ => Some (Resolved (Names (chineseVoices vs)))
       end.
Proof.
  intros Hsy Hvs p1 p2 s1 s2 s3; subst p1 p2 s1 s2 s3.
  destruct s as [c a sp y f ps urls nu tr]; cbn in *; subst.
  destruct sy as [vs0 q ovc]; cbn in *; subst.
  run_service. split; [reflexivity|]. split; [reflexivity|].
  destruct vss as [|vs vss]; cbn.
  - run_service. split; reflexivity.
  - run_service. apply later_voiceschanged_reach_the_last_listing.
Qed.

Lemma second_listing_starves_the_first_witness :
  let s2 := snd (getAvailableVoices (snd (getAvailableVoices loading_service))) in
  let s3 := handle (VoicesChanged (voices sample_synthesizer)) s2 in
  result_of 0 s3 = None
  /\ result_of 1 s3 = Some (Resolved (Names ["Ting-Ting"])).
Proof.
  destruct (second_listing_starves_the_first loading_service
              {| voices := []; queue := []; onvoiceschanged := None |}
              [voices sample_synthesizer] eq_refl eq_refl)
    as (_ & _ & H1 & H2).
  vm_compute in H1, H2. vm_compute. split; assumption.
Defined.

(** ** Selecting a voice *)




Lemma append_nil_r (a : string) : (a ++ "")%string = a.
Proof. induction a as [|ch a IH]; cbn; congruence. Qed.

Lemma includes_refl (a : string) : JS.includes a a = true.
Proof. apply includes_spec. exists "", "". cbn. rewrite append_nil_r. reflexivity. Qed.

(** The voice [speakWithWebSpeech] finds for a name taken from the list of
    the Chinese voices among [installed]. *)
Lemma voice_for_a_listed_name (c : AzureTTSConfig) (o : SpeechOptions)
    (installed : list SpeechSynthesisVoice) (name : string) :
  In name (chineseVoices installed) ->
  let found := selected_voice c (set_voice (Some name) o) installed in
  (name = "" -> found = None)
  /\ (name <> "" ->
      (forall w, In w installed -> JS.includes (voice_lang w) "zh" = true ->
                 JS.includes (voice_lang w) (language c) = true) ->
      exists w, found = Some w
                /\ In w installed
                /\ JS.includes (voice_name w) name = true
                /\ JS.includes (voice_lang w) (language c) = true)
  /\ ((forall w, In w installed -> JS.includes (voice_lang w) (language c) = false) ->
      found = None).
Proof.
  intros Hlisted found; subst found.
  apply chineseVoices_spec in Hlisted as (v & Hv & Hn & Hzh).
  unfold selected_voice, select_voice, JS.truthy_string, JS.or_string; cbn.
  destruct name as [|ch n]; cbn.
  - split; [reflexivity|]. split; [congruence | reflexivity].
  - split; [discriminate|]. split.
    + intros _ Hl. destruct (List.find _ installed) as [w|] eqn:Hf.
      * apply List.find_some in Hf as [Hw Ht]. apply andb_prop in Ht as [H1 H2].
        exists w. auto.
      * exfalso. pose proof (List.find_none _ _ Hf v Hv) as Hx. cbn in Hx.
        rewrite Hn, includes_refl, (Hl v Hv Hzh) in Hx. discriminate.
    + intros Hall. destruct (List.find _ installed) as [w|] eqn:Hf; [|reflexivity].
      apply List.find_some in Hf as [Hw Ht]. apply andb_prop in Ht as [H1 H2].
      rewrite (Hall w Hw) in H2. discriminate.
Qed.

(** X13.  From the list to the utterance.  The list is the one
    [getAvailableVoices] resolves with: at once, or on the [voiceschanged]
    event when no voice was loaded at the call.  A name from it, passed to
    [speakWithWebSpeech] as the voice: the empty name, which a voice
    without a name puts on the list, is read as no request and gives the
    utterance no voice; another name gives it an installed voice whose name
    contains it, provided every installed voice with a "zh" tag also
    carries the configured language in its tag.  When no installed voice
    carries the configured language, the utterance gets no voice, whatever
    the list held. *)
Theorem listed_voice_can_be_requested (s : State) (sy : SpeechSynthesis)
    (vs : list SpeechSynthesisVoice) (text : string) (o : SpeechOptions)
    (names : list string) (name : string) :
  speechSynthesis s = Some sy ->
  let p := fst (getAvailableVoices s) in
  let listed :=
    match voices sy with
    | [] => handle (VoicesChanged vs) (snd (getAvailableVoices s))
    | _ :: _ => snd (getAvailableVoices s)
    end in
  let installed :=
    match voices sy with
    | [] => vs
    | _ :: _ => voices sy
    end in
  result_of p listed = Some (Resolved (Names names)) ->
  In name names ->
  let request := set_voice (Some name) o in
  exists u,
    head (trace (snd (speakWithWebSpeech text request listed)))
    = Some (SynthSpeak (length (promises listed)) u)
    /\ installed_voices listed = installed
    /\ (name = "" -> utt_voice u = None)
    /\ (name <> "" ->
        (forall w, In w installed -> JS.includes (voice_lang w) "zh" = true ->
                   JS.includes (voice_lang w) (language (config s)) = true) ->
        exists w, utt_voice u = Some w
                  /\ In w installed
                  /\ JS.includes (voice_name w) name = true
                  /\ JS.includes (voice_lang w) (language (config s)) = true)
    /\ ((forall w, In w installed ->
                   JS.includes (voice_lang w) (language (config s)) = false) ->
        utt_voice u = None).
Proof.
  intros Hsy p listed installed; subst p listed installed.
  destruct s as [c a sp y f ps urls nu tr]; cbn in *; subst.
  destruct sy as [[|v0 vs0] qu ovc]; cbn [voices].
  - run_service. intros [= <-] Hin.
    eexists. split; [rewrite ?length_fresh; reflexivity|]. split; [reflexivity|].
    unfold local_utterance, make_utterance; cbn [utt_voice voices].
    exact (voice_for_a_listed_name c o vs name Hin).
  - run_service. intros [= <-] Hin.
    eexists. split; [rewrite ?length_fresh; reflexivity|]. split; [reflexivity|].
    unfold local_utterance, make_utterance; cbn [utt_voice voices].
    exact (voice_for_a_listed_name c o (v0 :: vs0) name Hin).
Qed.

(** The voices arrive with the [voiceschanged] event; "Ting-Ting" is listed
    and then requested. *)
Lemma listed_voice_can_be_requested_witness :
  let listed :=
    handle (VoicesChanged (voices sample_synthesizer))
      (snd (getAvailableVoices loading_service)) in
  result_of 0 listed = Some (Resolved (Names ["Ting-Ting"]))
  /\ exists u w,
       head (trace (snd (speakWithWebSpeech "你好"
                           (set_voice (Some "Ting-Ting") no_options) listed)))
       = Some (SynthSpeak 1 u)
       /\ utt_voice u = Some w
       /\ In w (voices sample_synthesizer).
Proof.
  assert (Hres : result_of (fst (getAvailableVoices loading_service))
                   (handle (VoicesChanged (voices sample_synthesizer))
                      (snd (getAvailableVoices loading_service)))
                 = Some (Resolved (Names ["Ting-Ting"])))
    by (vm_compute; reflexivity).
  split; [exact Hres|].
  destruct (listed_voice_can_be_requested loading_service
              {| voices := []; queue := []; onvoiceschanged := None |}
              (voices sample_synthesizer) "你好" no_options
              ["Ting-Ting"] "Ting-Ting" eq_refl Hres (or_introl eq_refl))
    as (u & Hu & _ & _ & Hsel & _).
  destruct Hsel as (w & H1 & H2 & _).
  - discriminate.
  - intros w [<-|[<-|[]]] Hzh; [reflexivity | discriminate Hzh].
  - exists u, w. split; [exact Hu|]. split; [exact H1 | exact H2].
Defined.

(** ** A playback started over another *)

Arguments deliver : simpl never.

Lemma deliver_cons (ev : event) (evs : list event) (s : State) :
  deliver (ev :: evs) s = deliver evs (handle ev s).
Proof. reflexivity. Qed.

Lemma in_filter_other (url : nat) (urls : list nat) :
  In url urls -> In url (List.filter (fun u => negb (Nat.eqb u (S url))) urls).
Proof.
  intros H. apply List.filter_In. split; [exact H|].
  rewrite eqb_succ_self. reflexivity.
Qed.

(** Once the handlers of the audio element belong to the second playback,
    the events of the element leave the first one as it is. *)
Lemma orphan_after_exit c sp sy f ps urls nu tr src0 b st2 (evs : list event) :
  forallb audio_event evs = true ->
  In nu urls ->
  (forall o, st2 <> Pending (Some o)) ->
  let h2 := {| pb_url := S nu; pb_promise := length ps + 1 |} in
  let s := deliver evs
             (Build_State c
                (Some {| src := src0; paused := b;
                         onended := Some h2; onerror := Some h2 |})
                sp sy f
                (ps ++ [ {| pr_origin := OfPlayback nu; pr_status := Pending None |};
                         {| pr_origin := OfPlayback (S nu); pr_status := st2 |} ])
                urls (S (S nu)) tr) in
  In nu (object_urls s)
  /\ releases nu s = length (List.filter (is_revoke nu) tr)
  /\ result_of (length ps) s = None.
Proof.
  intros Hevs Hin Hst h2; subst h2.
  revert sp urls tr b st2 Hin Hst Hevs.
  induction evs as [|ev evs IH]; intros sp urls tr b st2 Hin Hst Hevs.
  - unfold deliver; cbn. run_service. repeat split. exact Hin.
  - cbn in Hevs. apply andb_prop in Hevs as [Hev Hevs]. rewrite deliver_cons.
    destruct st2 as [[fr|]|o]; [exfalso; exact (Hst fr eq_refl) | |];
      destruct ev; try discriminate Hev.
    all: match goal with
         | |- context [handle ?e ?t] =>
             let H := fresh "Hstep" in
             eassert (H : handle e t = _); [run_service; reflexivity | rewrite H; clear H]
         end.
    all: match goal with
         | |- context [deliver _ (Build_State _ _ ?sp' _ _ ?ps' ?urls' _ ?tr')] =>
             match ps' with
             | _ ++ [_; {| pr_origin := _; pr_status := ?st' |}] =>
                 specialize (IH sp' urls' tr' true st')
             end
         end.
    all: unfold releases in IH |- *; cbn [trace List.filter is_revoke] in IH;
      rewrite succ_eqb_self in IH.
    all: apply IH; auto using in_filter_other; discriminate.
Qed.

(** X14.  A second [playAudioBuffer] before the first playback has ended
    reuses the audio element and replaces its two handlers.  From then on
    the events of the element belong to the second playback: however many
    [ended] and [error] events follow, the object URL of the first playback
    stays live and is never released, and the promise of the first playback
    is never settled. *)
Theorem second_playback_orphans_the_first (s : State) (d1 d2 : list Byte.byte)
    (evs : list event) :
  forallb audio_event evs = true ->
  let url1 := next_url s in
  let url2 := S (next_url s) in
  let p1 := length (promises s) in
  let p2 := length (promises s) + 1 in
  let s1 := snd (playAudioBuffer d1 s) in
  let s2 := snd (playAudioBuffer d2 s1) in
  let s3 := deliver evs s2 in
  fst (playAudioBuffer d2 s1) = p2
  /\ trace s2 = AudioPlay :: AudioSetSrc url2 :: CreateObjectURL d2 url2 :: trace s1
  /\ (audio s2 ≫= onended) = Some {| pb_url := url2; pb_promise := p2 |}
  /\ (audio s2 ≫= onerror) = Some {| pb_url := url2; pb_promise := p2 |}
  /\ result_of p1 s2 = None
  /\ In url1 (object_urls s3)
  /\ releases url1 s3 = releases url1 s
  /\ result_of p1 s3 = None.
Proof.
  intros Hevs url1 url2 p1 p2 s1 s2 s3; subst url1 url2 p1 p2 s1 s2 s3.
  destruct s as [c a sp sy f ps urls nu tr].
  rewrite !playAudioBuffer_normal. cbn [fst snd].
  assert (Hs2 : cloud_session d2 (cloud_session d1 (Build_State c a sp sy f ps urls nu tr))
          = Build_State c
              (Some {| src := Some (S nu); paused := false;
                       onended := Some {| pb_url := S nu; pb_promise := length ps + 1 |};
                       onerror := Some {| pb_url := S nu; pb_promise := length ps + 1 |} |})
              true sy f
              (ps ++ [ {| pr_origin := OfPlayback nu; pr_status := Pending None |};
                       {| pr_origin := OfPlayback (S nu); pr_status := Pending None |} ])
              (S nu :: nu :: urls) (S (S nu))
              (AudioPlay :: AudioSetSrc (S nu) :: CreateObjectURL d2 (S nu)
               :: AudioPlay :: AudioSetSrc nu
               :: new_audio_calls a ++ CreateObjectURL d1 nu :: tr)).
  { unfold cloud_session; cbn. rewrite length_fresh, <- app_assoc. reflexivity. }
  rewrite Hs2. clear Hs2. cbn [promises next_url trace audio].
  split; [unfold cloud_session; cbn; apply length_fresh|].
  split; [unfold cloud_session; reflexivity|].
  split; [reflexivity|]. split; [reflexivity|].
  split; [run_service; reflexivity|].
  pose proof (orphan_after_exit c true sy f ps (S nu :: nu :: urls) nu
                (AudioPlay :: AudioSetSrc (S nu) :: CreateObjectURL d2 (S nu)
                 :: AudioPlay :: AudioSetSrc nu
                 :: new_audio_calls a ++ CreateObjectURL d1 nu :: tr)
                (Some (S nu)) false (Pending None) evs Hevs) as H.
  cbn zeta in H.
  destruct H as (H1 & H2 & H3); [right; left; reflexivity | discriminate |].
  split; [exact H1|]. split; [|exact H3].
  rewrite H2. unfold releases; cbn. rewrite List.filter_app.
  destruct a; reflexivity.
Qed.

(** Two buffers in a row, then the audio ends, fails and ends again. *)
Lemma second_playback_orphans_the_first_witness :
  let s2 := snd (playAudioBuffer mp3 (snd (playAudioBuffer mp3 configured_service))) in
  object_urls (deliver [AudioEnded; AudioError; AudioEnded] s2) = [0]
  /\ result_of 0 (deliver [AudioEnded; AudioError; AudioEnded] s2) = None.
Proof.
  pose proof (second_playback_orphans_the_first configured_service mp3 mp3
                [AudioEnded; AudioError; AudioEnded] eq_refl) as H.
  cbn zeta in H. destruct H as (_ & _ & _ & _ & _ & _ & _ & H).
  vm_compute in H. vm_compute. split; [reflexivity | exact H].
Defined.
